(** * Dumbo-octopus grid stepper (examples/cpp/Advent-of-Code-2021-day_11/solver.cpp)

    A shallow embedding of [int step(std::vector<std::string>& levels)] and
    the properties of one step of the flash/propagation rule.

    Modelling choices, all taken from the source:
    - a [std::string] is the list of its [char] codes; [char] is the signed
      8-bit type of the usual x86-64 ABI, carried in [Z] with the wrap-around
      of [levels[r][c]++] written out ([char_incr]);
    - the [int] variables [R], [C], [r], [c], [num_flashes] are carried in
      [Z]: coordinates stay within [-1 .. R] and [-1 .. C], and
      [num_flashes] never exceeds [R * C] ([num_flashes_bound]), so no
      [int] overflows on a grid whose cell count fits in an [int];
    - [std::queue] is a list, front first; [Q.emplace] appends at the back;
    - [levels.at(0)] on an empty vector throws [std::out_of_range]; an
      unchecked [levels[r][c]] outside the string is undefined behaviour.
      Both are outcomes of the model ([Throws_out_of_range], [Undefined]);
    - the [while] loop is run on fuel; [step] supplies nine times the number
      of cells, and [step_total] shows this is always enough. *)

From Stdlib Require Import ZArith Lia Ascii String.
From stdpp Require Import base list strings.

Local Open Scope Z_scope.

(** ** Data model *)

(** A coordinate [(r, c)] as stored in [std::pair<int, int>]. *)
Abbreviation coord := (Z * Z)%type.

(** [std::vector<std::string>]: rows of [char] codes. *)
Abbreviation grid := (list (list Z)).

(** The character literals the source compares against. *)
Definition ch0 : Z := 48.   (* '0' *)
Definition ch9 : Z := 57.   (* '9' *)

(** Signed 8-bit wrap-around, the conversion of an [int] back to [char]. *)
Definition wrap8 (x : Z) : Z := (x + 128) mod 256 - 128.

(** [levels[r][c]++] on a [char]: promote, add one, convert back. *)
Definition char_incr (v : Z) : Z := wrap8 (v + 1).

(** The code of a character of a string literal, as a signed [char]. *)
Definition char_code (a : ascii) : Z := wrap8 (Z.of_nat (nat_of_ascii a)).

Fixpoint row_of_string (s : string) : list Z :=
  match s with
  | EmptyString => []
  | String a s' => char_code a :: row_of_string s'
  end.

Definition grid_of_strings (l : list string) : grid := map row_of_string l.

(** What a call can do. *)
Inductive outcome (A : Type) : Type :=
  | Returns (a : A)
  | Throws_out_of_range
  | Undefined.

Arguments Returns {A} a.
Arguments Throws_out_of_range {A}.
Arguments Undefined {A}.

(** ** Grid access *)

(** Reading [levels[r][c]]; [None] when the access is outside the vector or
    outside the string. (Reading position [size()] of a [std::string] is
    still defined, but the loop goes on to increment that position, which is
    not; and the sweep only reads positions the loop has incremented. So one
    notion of "outside" serves both loops.) *)
Definition cell (levels : grid) (p : coord) : option Z :=
  if (p.1 <? 0) || (p.2 <? 0) then None
  else match levels !! Z.to_nat p.1 with
       | Some row => row !! Z.to_nat p.2
       | None => None
       end.

(** Writing [levels[r][c] = v] in place (only used after a successful read). *)
Definition set_cell (levels : grid) (p : coord) (v : Z) : grid :=
  alter (fun row => <[Z.to_nat p.2 := v]> row) (Z.to_nat p.1) levels.

(** ** The queue *)

(** The initial contents of [Q]: every cell, row by row. [seqZ 0 n] lists
    the values of a [for (int i = 0; i < n; i++)]. *)
Definition all_cells (R C : Z) : list coord :=
  r ← seqZ 0 R; c ← seqZ 0 C; [(r, c)].

(** [std::array{-1, 0, 1}]. *)
Definition deltas : list Z := [-1; 0; 1].

(** The coordinates emplaced by the two nested [for] loops of a flash at
    [(r, c)], in the order they are emplaced. *)
Definition neighbours (R C : Z) (p : coord) : list coord :=
  dr ← deltas; dc ← deltas;
  if (dr =? 0) && (dc =? 0) then []
  else if (0 <=? p.1 + dr) && (p.1 + dr <? R) &&
          (0 <=? p.2 + dc) && (p.2 + dc <? C)
       then [(p.1 + dr, p.2 + dc)]
       else [].

(** ** The propagation loop *)

(** [while (!Q.empty()) { ... }] on fuel: [None] when the fuel runs out. *)
Fixpoint drain (fuel : nat) (R C : Z) (Q : list coord) (levels : grid)
    (num_flashes : Z) : option (outcome (grid * Z)) :=
  match Q with
  | [] => Some (Returns (levels, num_flashes))
  | p :: Q' =>
    match fuel with
    | O => None
    | S fuel' =>
      match cell levels p with
      | None => Some Undefined
      | Some v =>
        if v =? ch9
        then drain fuel' R C (Q' ++ neighbours R C p)
                   (set_cell levels p (char_incr v)) (num_flashes + 1)
        else drain fuel' R C Q'
                   (set_cell levels p (char_incr v)) num_flashes
      end
    end
  end.

(** The final sweep over the cells [cs]: values above ['9'] go back to ['0']. *)
Fixpoint sweep (cs : list coord) (levels : grid) : outcome grid :=
  match cs with
  | [] => Returns levels
  | p :: cs' =>
    match cell levels p with
    | None => Undefined
    | Some v =>
      sweep cs' (if v >? ch9 then set_cell levels p ch0 else levels)
    end
  end.

(** [step] with an explicit bound on the number of loop iterations. *)
Definition step_fuel (fuel : nat) (levels : grid)
    : option (outcome (grid * Z)) :=
  match levels with
  | [] => Some Throws_out_of_range          (* levels.at(0) *)
  | row0 :: _ =>
    let R := Z.of_nat (length levels) in
    let C := Z.of_nat (length row0) in
    match drain fuel R C (all_cells R C) levels 0 with
    | None => None
    | Some (Returns (levels', num_flashes)) =>
      match sweep (all_cells R C) levels' with
      | Returns levels'' => Some (Returns (levels'', num_flashes))
      | Throws_out_of_range => Some Throws_out_of_range
      | Undefined => Some Undefined
      end
    | Some Throws_out_of_range => Some Throws_out_of_range
    | Some Undefined => Some Undefined
    end
  end.

(** Number of cells of the [R] x [C] rectangle the loops range over. *)
Definition cell_count (levels : grid) : nat :=
  match levels with
  | [] => O
  | row0 :: _ => (length levels * length row0)%nat
  end.

(** [int step(std::vector<std::string>& levels)]: the new contents of
    [levels] and the returned [num_flashes]. *)
Definition step (levels : grid) : option (outcome (grid * Z)) :=
  step_fuel (9 * cell_count levels) levels.


(** ** The loop with its history

    The same loop, also recording every coordinate ever emplaced on [Q]
    ([enqueued], oldest first) and every cell whose flash check succeeded
    ([flashes], latest first). The record is ghost state: [drain_log_erase]
    shows that forgetting it gives [drain] back. *)
Record history : Type := History {
  enqueued : list coord;
  flashes : list coord
}.

Fixpoint drain_log (fuel : nat) (R C : Z) (Q : list coord) (levels : grid)
    (num_flashes : Z) (h : history) : option (outcome (grid * Z * history)) :=
  match Q with
  | [] => Some (Returns (levels, num_flashes, h))
  | p :: Q' =>
    match fuel with
    | O => None
    | S fuel' =>
      match cell levels p with
      | None => Some Undefined
      | Some v =>
        if v =? ch9
        then drain_log fuel' R C (Q' ++ neighbours R C p)
               (set_cell levels p (char_incr v)) (num_flashes + 1)
               (History (enqueued h ++ neighbours R C p) (p :: flashes h))
        else drain_log fuel' R C Q'
               (set_cell levels p (char_incr v)) num_flashes h
      end
    end
  end.

Definition step_log_fuel (fuel : nat) (levels : grid)
    : option (outcome (grid * Z * history)) :=
  match levels with
  | [] => Some Throws_out_of_range
  | row0 :: _ =>
    let R := Z.of_nat (length levels) in
    let C := Z.of_nat (length row0) in
    match drain_log fuel R C (all_cells R C) levels 0
                    (History (all_cells R C) []) with
    | None => None
    | Some (Returns (levels', num_flashes, h)) =>
      match sweep (all_cells R C) levels' with
      | Returns levels'' => Some (Returns (levels'', num_flashes, h))
      | Throws_out_of_range => Some Throws_out_of_range
      | Undefined => Some Undefined
      end
    | Some Throws_out_of_range => Some Throws_out_of_range
    | Some Undefined => Some Undefined
    end
  end.

Definition step_log (levels : grid) : option (outcome (grid * Z * history)) :=
  step_log_fuel (9 * cell_count levels) levels.

(** Forgetting the history of an outcome. *)
Definition forget {A B : Type} (o : outcome (A * B)) : outcome A :=
  match o with
  | Returns (a, _) => Returns a
  | Throws_out_of_range => Throws_out_of_range
  | Undefined => Undefined
  end.

(** ** Predicates on grids *)

(** [(r, c)] lies in the rectangle [0 <= r < R], [0 <= c < C]. *)
Definition inb (R C : Z) (p : coord) : Prop :=
  0 <= p.1 < R /\ 0 <= p.2 < C.

Definition is_digit (v : Z) : bool := (ch0 <=? v) && (v <=? ch9).

(** Width of the grid as the source reads it: the length of row 0. *)
Definition width (levels : grid) : nat :=
  match levels with
  | [] => O
  | row0 :: _ => length row0
  end.

(** Every row is exactly as long as row 0. *)
Definition rectangular (levels : grid) : bool :=
  forallb (fun row => Nat.eqb (length row) (width levels)) levels.

(** No row is shorter than row 0: all the accesses of [step] are inside. *)
Definition covered (levels : grid) : bool :=
  forallb (fun row => Nat.leb (width levels) (length row)) levels.

(** A valid input: at least one row, all rows of one length, digits only. *)
Definition valid_grid (levels : grid) : bool :=
  negb (Nat.eqb (length levels) 0) && rectangular levels &&
  forallb (forallb is_digit) levels.

(** Number of occurrences of [p] in a queue. *)
Fixpoint occ (p : coord) (l : list coord) : Z :=
  match l with
  | [] => 0
  | q :: l' => (if decide (q = p) then 1 else 0) + occ p l'
  end.

(** Number of times [p] was emplaced by the flashes [fl]. *)
Fixpoint hits (R C : Z) (fl : list coord) (p : coord) : Z :=
  match fl with
  | [] => 0
  | f :: fl' => occ p (neighbours R C f) + hits R C fl' p
  end.

(** Total number of coordinates emplaced by the flashes [fl]. *)
Fixpoint emplaced (R C : Z) (fl : list coord) : nat :=
  match fl with
  | [] => O
  | f :: fl' => (length (neighbours R C f) + emplaced R C fl')%nat
  end.

(** The value of a cell that started at [v0] after [k] increments. *)
Definition bump (v0 k : Z) : Z := if k =? 0 then v0 else wrap8 (v0 + k).

(** Number of times [p] has been dequeued when the queue is [Q] and the
    flashes so far are [fl]: once for the initial emplace, once per flash
    that emplaced it, minus the occurrences still waiting. *)
Definition visits (R C : Z) (Q fl : list coord) (p : coord) : Z :=
  1 + hits R C fl p - occ p Q.

(** Each flash had a cause: the cell started at some [v0] and had been
    raised to ['9'] by at most as many increments as earlier flashes
    emplaced it. *)
Fixpoint caused (g0 : grid) (R C : Z) (fl : list coord) : Prop :=
  match fl with
  | [] => True
  | f :: fl' =>
    (exists v0 j, cell g0 f = Some v0 /\ 0 <= j <= hits R C fl' f /\
                  bump v0 j = ch9) /\
    caused g0 R C fl'
  end.

(** The loop invariant, relating the state [(Q, g)] and the history [h] to
    the grid [g0] the loop was entered with. *)
Record Inv (g0 : grid) (R C : Z) (Q : list coord) (g : grid) (h : history)
    : Prop := {
  inv_shape : map length g = map length g0;
  inv_enq_inb : Forall (inb R C) (enqueued h);
  inv_enq_queue : exists done, enqueued h = done ++ Q;
  inv_enq_len :
    length (enqueued h) =
    (length (all_cells R C) + emplaced R C (flashes h))%nat;
  inv_fl_inb : Forall (inb R C) (flashes h);
  inv_fl_nodup : NoDup (flashes h);
  inv_fl_caused : caused g0 R C (flashes h);
  inv_visits : forall p, inb R C p -> 0 <= visits R C Q (flashes h) p;
  inv_val : forall p v0, inb R C p -> cell g0 p = Some v0 ->
    cell g p = Some (bump v0 (visits R C Q (flashes h) p));
  inv_fl : forall p v0, inb R C p -> cell g0 p = Some v0 ->
    (p ∈ flashes h <->
     exists j, 0 <= j < visits R C Q (flashes h) p /\ bump v0 j = ch9);
  inv_outside : forall p, inb R C p -> cell g0 p = None -> p ∈ Q;
  inv_frame : forall p, ~ inb R C p -> cell g p = cell g0 p
}.

(** The eight places from which a flash can reach [p]. *)
Definition around (p : coord) : list coord :=
  [(p.1 - 1, p.2 - 1); (p.1 - 1, p.2); (p.1 - 1, p.2 + 1);
   (p.1, p.2 - 1); (p.1, p.2 + 1);
   (p.1 + 1, p.2 - 1); (p.1 + 1, p.2); (p.1 + 1, p.2 + 1)].

(** The variant of the loop: each iteration removes one queue entry, and a
    flash pays for its (at most eight) new entries with one cell that can
    never flash again. *)
Definition variant (R C : Z) (Q : list coord) (h : history) : nat :=
  (length Q + 8 * (length (all_cells R C) - length (flashes h)))%nat.

(** The value the sweep leaves in a cell holding [v]. *)
Definition reset (v : Z) : Z := if v >? ch9 then ch0 else v.

(** What a completed step did, for any grid whose accesses are all inside:
    [g] is the grid before, [g'] the grid after, [n] the returned count and
    [h] the history of the loop. *)
Record Ran (g g' : grid) (n : Z) (h : history) : Prop := {
  ran_count : n = Z.of_nat (length (flashes h));
  ran_shape : map length g' = map length g;
  ran_enq_inb :
    Forall (inb (Z.of_nat (length g)) (Z.of_nat (width g))) (enqueued h);
  ran_enq_len :
    length (enqueued h) =
    (cell_count g +
     emplaced (Z.of_nat (length g)) (Z.of_nat (width g)) (flashes h))%nat;
  ran_fl_inb :
    Forall (inb (Z.of_nat (length g)) (Z.of_nat (width g))) (flashes h);
  ran_fl_nodup : NoDup (flashes h);
  ran_fl_caused :
    caused g (Z.of_nat (length g)) (Z.of_nat (width g)) (flashes h);
  ran_val : forall p v0,
    inb (Z.of_nat (length g)) (Z.of_nat (width g)) p -> cell g p = Some v0 ->
    cell g' p =
    Some (reset (bump v0 (1 + hits (Z.of_nat (length g)) (Z.of_nat (width g))
                                   (flashes h) p)));
  ran_fl : forall p v0,
    inb (Z.of_nat (length g)) (Z.of_nat (width g)) p -> cell g p = Some v0 ->
    (p ∈ flashes h <->
     exists j, 0 <= j <= hits (Z.of_nat (length g)) (Z.of_nat (width g))
                              (flashes h) p /\ bump v0 j = ch9);
  ran_frame : forall p,
    ~ inb (Z.of_nat (length g)) (Z.of_nat (width g)) p -> cell g' p = cell g p
}.

(** ** Statements about particular grids *)

(** [levels[r][c] == v], false outside the grid. *)
Definition holds (g : grid) (p : coord) (v : Z) : bool :=
  match cell g p with
  | Some w => w =? v
  | None => false
  end.

Definition coord_eqb (p q : coord) : bool := (p.1 =? q.1) && (p.2 =? q.2).

(** [c] holds the only ['9'] of the valid grid [g], and every in-bounds
    neighbour of [c] holds ['0']. *)
Definition isolated_nine (g : grid) (c : coord) : bool :=
  let R := Z.of_nat (length g) in
  let C := Z.of_nat (width g) in
  valid_grid g && holds g c ch9 &&
  forallb (fun q => holds g q ch0) (neighbours R C c) &&
  forallb (fun q => coord_eqb q c || negb (holds g q ch9)) (all_cells R C).

(** One step on such a grid: one flash, the centre at ['0'], every
    in-bounds neighbour raised by [inc]. *)
Definition lone_flash (inc : Z) (g : grid) (c : coord) : Prop :=
  exists g', step g = Some (Returns (g', 1)) /\
    cell g' c = Some ch0 /\
    forall q v, q ∈ neighbours (Z.of_nat (length g)) (Z.of_nat (width g)) c ->
                cell g q = Some v -> cell g' q = Some (v + inc).

Definition all_zero (g : grid) : bool := forallb (forallb (Z.eqb ch0)) g.

(** The number of times cell [p] passed the flash check in the history [h]. *)
Definition flash_count (h : history) (p : coord) : Z := occ p (flashes h).

(** ** Statements about the rule a step follows *)

(** Number of in-bounds neighbours of [p] that satisfy [S]. *)
Definition count_around (R C : Z) (S : coord -> bool) (p : coord) : Z :=
  Z.of_nat (length (filter (fun q => S q = true) (neighbours R C p))).

(** Some cell of the grid holds ['9']. *)
Definition has_nine (g : grid) : bool := existsb (existsb (Z.eqb ch9)) g.

(** Every cell of the grid holds ['9']. *)
Definition all_nine (g : grid) : bool := forallb (forallb (Z.eqb ch9)) g.

(** ** The animation around [step] (main.cpp)

    [main.cpp] keeps the grid in the global [levels], fills it with random
    digits and redraws it after every [step]. The text gadget is an object
    of the Python toolkit; the model records the calls made on it, in order,
    and nothing of what the toolkit does with them. [std::rand] is a stream
    [rnd] of integers together with the number of calls made so far.
    Failures on the Python side are outside the model. *)

Definition max_grid_size : Z := 20.
Definition X : Z := 6.

(** [' '] and the literal ["**0**"] of the branches that are never taken. *)
Definition ch_space : Z := 32.
Definition bold_zero : list Z := [42; 42; 48; 42; 42].

(** A call made on the text gadget: [add_str(text, pos=Point(row, col))] or
    [add_border()]. *)
Inductive draw : Type :=
  | Add_str (text : list Z) (row col : Z)
  | Add_border.

(** The state the functions of [main.cpp] act on. *)
Record world : Type := World {
  levels : grid;
  rand_calls : nat;
  screen : list draw
}.

(** Ways a call can fail to return. *)
Inductive fault : Type :=
  | Out_of_range          (* std::out_of_range, from [step] *)
  | Length_error          (* std::length_error, from [vector::reserve] *)
  | Undefined_behaviour.

Inductive run (A : Type) : Type :=
  | Ok (a : A)
  | Fails (f : fault).

Arguments Ok {A} a.
Arguments Fails {A} f.

(** A [for] loop whose index takes the values [l] in order and whose body
    may fail. *)
Fixpoint for_each {S : Type} (body : Z -> S -> run S) (l : list Z) (s : S)
    : run S :=
  match l with
  | [] => Ok s
  | i :: l' =>
    match body i s with
    | Ok s' => for_each body l' s'
    | Fails f => Fails f
    end
  end.

Definition add_str (text : list Z) (row col : Z) (w : world) : world :=
  World (levels w) (rand_calls w) (screen w ++ [Add_str text row col]).

Definition add_border (w : world) : world :=
  World (levels w) (rand_calls w) (screen w ++ [Add_border]).

(** [void add_blank_grid(py::object text_gadget)]. *)
Definition add_blank_grid (w : world) : run world :=
  for_each
    (fun row w =>
       Ok (add_str (replicate (Z.to_nat (X * max_grid_size + 1)) ch_space)
                   row 0 w))
    (seqZ 1 max_grid_size) w.

(** [char(std::rand() % 10 + '0')] at the [k]-th call of [std::rand];
    [%] truncates as in C++. *)
Definition random_digit (rnd : nat -> Z) (k : nat) : Z :=
  wrap8 (Z.rem (rnd k) 10 + ch0).

(** The body of the inner loop of [add_random_grid], on the text of the
    current line and the world. *)
Definition add_random_cell (rnd : nat -> Z) (col : Z) (s : list Z * world)
    : run (list Z * world) :=
  let '(text, w) := s in
  let c := random_digit rnd (rand_calls w) in
  let text' := if true || negb (c =? ch0) then text ++ [c]
               else text ++ bold_zero in
  match levels w !! (length (levels w) - 1)%nat with
  | None => Fails Undefined_behaviour
  | Some line =>
    Ok (text',
        World (<[(length (levels w) - 1)%nat := line ++ [c]]> (levels w))
              (S (rand_calls w)) (screen w))
  end.

(** The largest value of the 32-bit [int] that holds [grid_size]. *)
Definition INT_MAX : Z := 2147483647.

(** [void add_random_grid(py::object text_gadget, const int grid_size)].
    [grid_size] is an [int]: a negative one makes [levels.reserve] throw,
    and at [INT_MAX] the bound [grid_size + 1] of the inner loop overflows
    (values above [INT_MAX] are no [int]s and are given the same outcome).
    In between, [reserve] and the strings are taken to get the memory they
    ask for; whether [reserve] throws [std::bad_alloc] for a large size is
    decided by the machine and not by the source, so the results about this
    function are stated for the sizes the slider can deliver, at most
    [X * max_grid_size]. *)
Definition add_random_grid (rnd : nat -> Z) (grid_size : Z) (w : world)
    : run world :=
  if grid_size <? 0 then Fails Length_error      (* levels.reserve(grid_size) *)
  else if INT_MAX <=? grid_size then Fails Undefined_behaviour
                                                 (* col < grid_size + 1 *)
  else
    for_each
      (fun row w =>
         match for_each (add_random_cell rnd) (seqZ 1 grid_size)
                        ([], World (levels w ++ [[]]) (rand_calls w) (screen w))
         with
         | Ok (text, w') => Ok (add_str text row 0 w')
         | Fails f => Fails f
         end)
      (seqZ 1 (Z.min max_grid_size grid_size))
      (World [] (rand_calls w) (screen w)).

(** The text of one line of [add_next_grid_text]: a space, then the row. *)
Definition line_text (line : list Z) : list Z :=
  foldl (fun text c => if true || negb (c =? ch0) then text ++ [c]
                       else text ++ bold_zero)
        [ch_space] line.

(** [void add_next_grid_text(py::object text_gadget)]; [None] only if the
    fuel of [step] ran out, which [step_total] excludes. *)
Definition add_next_grid_text (w : world) : option (run world) :=
  match step (levels w) with
  | None => None
  | Some Throws_out_of_range => Some (Fails Out_of_range)
  | Some Undefined => Some (Fails Undefined_behaviour)
  | Some (Returns (levels', _)) =>
    Some (for_each
            (fun row w =>
               match levels w !! Z.to_nat (row - 1) with
               | None => Fails Undefined_behaviour
               | Some line => Ok (add_str (line_text line) row 0 w)
               end)
            (seqZ 1 (Z.of_nat (length levels')))
            (World levels' (rand_calls w) (screen w)))
  end.

(** The slider callback of [on_start], given the new grid size, that is the
    slider value already rounded and converted to [int]. *)
Definition on_slider_change (rnd : nat -> Z) (new_size : Z) (w : world)
    : run world :=
  match add_blank_grid w with
  | Fails f => Fails f
  | Ok w1 =>
    match add_random_grid rnd new_size w1 with
    | Fails f => Fails f
    | Ok w2 => Ok (add_border w2)
    end
  end.

(** What [on_start] does to the grid and the gadget before its loop:
    [grid_size = 14], a random grid, a border. *)
Definition on_start_setup (rnd : nat -> Z) (w : world) : run world :=
  match add_random_grid rnd 14 w with
  | Fails f => Fails f
  | Ok w1 => Ok (add_border w1)
  end.

(** One turn of the [for (;;)] loop of [on_start], up to its [co_await]. *)
Definition frame (w : world) : option (run world) :=
  match add_next_grid_text w with
  | None => None
  | Some (Fails f) => Some (Fails f)
  | Some (Ok w1) => Some (Ok (add_border w1))
  end.

(** What the event loop can run once [on_start] is suspended: the next turn
    of its loop, or the slider callback with a new size. *)
Inductive event : Type :=
  | Tick
  | Slide (new_size : Z).

Fixpoint play (rnd : nat -> Z) (evs : list event) (w : world)
    : option (run world) :=
  match evs with
  | [] => Some (Ok w)
  | Tick :: evs' =>
    match frame w with
    | Some (Ok w') => play rnd evs' w'
    | other => other
    end
  | Slide n :: evs' =>
    match on_slider_change rnd n w with
    | Ok w' => play rnd evs' w'
    | Fails f => Some (Fails f)
    end
  end.

(** The grid size in force after the events [evs], starting from the 14 of
    [on_start]. *)
Definition current_size (evs : list event) : Z :=
  foldl (fun s e => match e with Slide n => n | Tick => s end) 14 evs.

(** The slider sizes among [evs] lie between [1] and [hi]. *)
Definition sizes_within (hi : Z) (evs : list event) : Prop :=
  Forall (fun e => match e with Slide n => 1 <= n <= hi | Tick => True end) evs.

(** A drawing call lies in the area that [add_blank_grid] blanks: a string
    at column 0 of one of the rows 1 to [max_grid_size], no longer than the
    blank line. *)
Definition in_blank_area (d : draw) : Prop :=
  match d with
  | Add_str text row col =>
    col = 0 /\ 1 <= row <= max_grid_size /\
    Z.of_nat (length text) <= X * max_grid_size + 1
  | Add_border => True
  end.

(** The digits of the calls [k], [k+1], ..., [k+n-1] of [std::rand]. *)
Definition digits (rnd : nat -> Z) (k n : nat) : list Z :=
  map (random_digit rnd) (seq k n).

(** [r] lines of [c] digits each, from call [k] on. *)
Fixpoint random_lines (rnd : nat -> Z) (c k r : nat) : list (list Z) :=
  match r with
  | O => []
  | S r' => digits rnd k c :: random_lines rnd c (k + c) r'
  end.



(** ** The loop as a transition relation

    The same [while] loop once more, as a relation between configurations
    (the queue, the grid, the counter), one rule per path through its body.
    Nothing is assumed about this relation being a function: that two
    executions from one configuration agree is proved ([loop_runs_det]). *)
Record config : Type := Config {
  cfg_queue : list coord;
  cfg_levels : grid;
  cfg_flashes : Z
}.

Inductive loop_turn (R C : Z) : config -> config -> Prop :=
  | turn_flash (p : coord) (Q : list coord) (g : grid) (n : Z) :
      cell g p = Some ch9 ->
      loop_turn R C (Config (p :: Q) g n)
                (Config (Q ++ neighbours R C p)
                        (set_cell g p (char_incr ch9)) (n + 1))
  | turn_plain (p : coord) (Q : list coord) (g : grid) (n v : Z) :
      cell g p = Some v -> v <> ch9 ->
      loop_turn R C (Config (p :: Q) g n)
                (Config Q (set_cell g p (char_incr v)) n).

(** Running the loop until the queue is empty. *)
Inductive loop_runs (R C : Z) : config -> grid * Z -> Prop :=
  | runs_done (g : grid) (n : Z) : loop_runs R C (Config [] g n) (g, n)
  | runs_turn (c c' : config) (r : grid * Z) :
      loop_turn R C c c' -> loop_runs R C c' r -> loop_runs R C c r.

(** One call of [step] that returns: the locals are set up afresh from
    [levels] alone, the loop runs, the sweep follows. *)
Inductive step_runs : grid -> grid * Z -> Prop :=
  | step_runs_intro (levels g1 g2 : grid) (n : Z) :
      levels <> [] ->
      loop_runs (Z.of_nat (length levels)) (Z.of_nat (width levels))
                (Config (all_cells (Z.of_nat (length levels))
                                   (Z.of_nat (width levels))) levels 0)
                (g1, n) ->
      sweep (all_cells (Z.of_nat (length levels)) (Z.of_nat (width levels)))
            g1 = Returns g2 ->
      step_runs levels (g2, n).

(** The caller's memory: the vectors it holds, each at its own index.
    [step(x)] receives the vector at index [a] by reference and leaves its
    new contents there; whatever it changed is what the next call finds. *)
Inductive call_runs (a : nat) : list grid -> list grid * Z -> Prop :=
  | call_runs_intro (mem : list grid) (g g' : grid) (n : Z) :
      mem !! a = Some g -> step_runs g (g', n) ->
      call_runs a mem (<[a := g']> mem, n).

(** [n1 = step(x); n2 = step(y);] with [x] at index [a] and [y] at [b]. *)
Definition two_calls (a b : nat) (mem mem2 : list grid) (n1 n2 : Z) : Prop :=
  exists mem1, call_runs a mem (mem1, n1) /\ call_runs b mem1 (mem2, n2).

(** ** Arithmetic of [char] *)

Lemma wrap8_small (x : Z) : -128 <= x <= 127 -> wrap8 x = x.
Proof. unfold wrap8. intros H. rewrite Z.mod_small; lia. Qed.

Lemma wrap8_succ (x : Z) : wrap8 (wrap8 x + 1) = wrap8 (x + 1).
Proof.
  unfold wrap8.
  replace ((x + 128) mod 256 - 128 + 1 + 128) with ((x + 128) mod 256 + 1) by lia.
  replace (x + 1 + 128) with ((x + 128) + 1) by lia.
  now rewrite Zplus_mod_idemp_l.
Qed.

Lemma bump_succ (v0 k : Z) : 0 <= k -> char_incr (bump v0 k) = bump v0 (k + 1).
Proof.
  intros Hk. unfold bump, char_incr.
  destruct (Z.eqb_spec k 0) as [->|Hne]; simpl.
  - reflexivity.
  - destruct (Z.eqb_spec (k + 1) 0); [lia|].
    rewrite wrap8_succ. f_equal. lia.
Qed.

(** Two different numbers of increments, fewer than 256 apart, give
    different values. *)
Lemma bump_inj (v0 j d : Z) :
  0 <= j < d -> d < 256 -> bump v0 j = bump v0 d -> False.
Proof.
  unfold bump, wrap8. intros Hj Hd.
  destruct (Z.eqb_spec d 0); [lia|].
  destruct (Z.eqb_spec j 0) as [->|Hne]; intros Heq.
  - pose proof (Z.div_mod (v0 + d + 128) 256 ltac:(lia)).
    pose proof (Z.mod_pos_bound (v0 + d + 128) 256 ltac:(lia)). lia.
  - pose proof (Z.div_mod (v0 + d + 128) 256 ltac:(lia)).
    pose proof (Z.div_mod (v0 + j + 128) 256 ltac:(lia)).
    pose proof (Z.mod_pos_bound (v0 + d + 128) 256 ltac:(lia)). lia.
Qed.

(** On a digit there is no wrap-around within nine increments. *)
Lemma bump_digit (v0 k : Z) :
  ch0 <= v0 <= ch9 -> 0 <= k <= 9 -> bump v0 k = v0 + k.
Proof.
  unfold bump, ch0, ch9. intros Hv Hk.
  destruct (Z.eqb_spec k 0) as [->|Hne]; [lia|].
  apply wrap8_small. lia.
Qed.

(** ** Reading and writing cells *)

Lemma cell_Some (g : grid) (p : coord) (v : Z) :
  cell g p = Some v <->
  0 <= p.1 /\ 0 <= p.2 /\
  exists row, g !! Z.to_nat p.1 = Some row /\ row !! Z.to_nat p.2 = Some v.
Proof.
  unfold cell.
  destruct (Z.ltb_spec p.1 0), (Z.ltb_spec p.2 0); simpl;
    try (split; [discriminate | lia]).
  destruct (g !! Z.to_nat p.1) as [row|].
  - split; [eauto 6|]. intros (_ & _ & row' & [= ->] & Hv). exact Hv.
  - split; [discriminate|]. intros (_ & _ & row' & [=] & _).
Qed.

(** Whether an access is inside depends on the shape of the grid only. *)
Lemma cell_is_Some (g : grid) (p : coord) :
  is_Some (cell g p) <->
  0 <= p.1 /\ 0 <= p.2 /\
  exists n, map length g !! Z.to_nat p.1 = Some n /\ (Z.to_nat p.2 < n)%nat.
Proof.
  split.
  - intros [v Hv]. apply cell_Some in Hv as (H1 & H2 & row & Hr & Hc).
    split; [exact H1|]. split; [exact H2|]. exists (length row). split.
    + change (map length g) with (length <$> g).
      rewrite list_lookup_fmap, Hr. reflexivity.
    + apply lookup_lt_Some in Hc. exact Hc.
  - intros (H1 & H2 & n & Hn & Hlt).
    change (map length g) with (length <$> g) in Hn.
    rewrite list_lookup_fmap in Hn.
    destruct (g !! Z.to_nat p.1) as [row|] eqn:Hr; [|discriminate].
    injection Hn as <-.
    apply lookup_lt_is_Some in Hlt as [v Hv].
    exists v. apply cell_Some. eauto 6.
Qed.

Lemma cell_shape (g g' : grid) (p : coord) :
  map length g = map length g' -> is_Some (cell g p) -> is_Some (cell g' p).
Proof. intros Hs. rewrite !cell_is_Some, Hs. trivial. Qed.

Lemma cell_shape_None (g g' : grid) (p : coord) :
  map length g = map length g' -> cell g p = None -> cell g' p = None.
Proof.
  intros Hs Hn. destruct (cell g' p) eqn:E; [|reflexivity].
  assert (is_Some (cell g p)) as [v Hv].
  { eapply cell_shape; [symmetry; exact Hs | eauto]. }
  congruence.
Qed.

Lemma set_cell_shape (g : grid) (p : coord) (v : Z) :
  map length (set_cell g p v) = map length g.
Proof.
  unfold set_cell. apply list_eq. intros i.
  change (map length) with (fmap (M:=list) (@length Z)).
  rewrite !list_lookup_fmap.
  destruct (decide (i = Z.to_nat p.1)) as [->|Hne].
  - rewrite list_lookup_alter_eq.
    destruct (g !! Z.to_nat p.1); simpl; [|reflexivity].
    now rewrite length_insert.
  - rewrite list_lookup_alter_ne by congruence. reflexivity.
Qed.

Lemma cell_set_same (g : grid) (p : coord) (v w : Z) :
  cell g p = Some v -> cell (set_cell g p w) p = Some w.
Proof.
  intros (H1 & H2 & row & Hr & Hc)%cell_Some.
  apply cell_Some. split; [exact H1|]. split; [exact H2|].
  exists (<[Z.to_nat p.2 := w]> row). split.
  - unfold set_cell. rewrite list_lookup_alter_eq, Hr. reflexivity.
  - apply list_lookup_insert_eq. apply lookup_lt_Some in Hc. exact Hc.
Qed.

Lemma cell_set_other (g : grid) (p q : coord) (v w : Z) :
  cell g p = Some v -> q <> p -> cell (set_cell g p w) q = cell g q.
Proof.
  intros (H1 & H2 & _)%cell_Some Hne.
  unfold cell, set_cell.
  destruct ((q.1 <? 0) || (q.2 <? 0)) eqn:Hq; [reflexivity|].
  apply orb_false_iff in Hq as [Hq1 Hq2].
  apply Z.ltb_ge in Hq1, Hq2.
  destruct (decide (Z.to_nat q.1 = Z.to_nat p.1)) as [Heq|Hr].
  - rewrite Heq, list_lookup_alter_eq.
    destruct (g !! Z.to_nat p.1) as [row|]; simpl; [|reflexivity].
    apply list_lookup_insert_ne.
    intros Hc. apply Hne. destruct p, q; simpl in *. f_equal; lia.
  - rewrite list_lookup_alter_ne by congruence. reflexivity.
Qed.

(** ** Counting occurrences *)

Lemma occ_nonneg (p : coord) (l : list coord) : 0 <= occ p l.
Proof. induction l as [|q l IH]; simpl; [lia|]. destruct (decide (q = p)); lia. Qed.

Lemma occ_app (p : coord) (l l' : list coord) :
  occ p (l ++ l') = occ p l + occ p l'.
Proof. induction l as [|q l IH]; simpl; [reflexivity|]. rewrite IH. lia. Qed.

Lemma occ_not_elem (p : coord) (l : list coord) : p ∉ l -> occ p l = 0.
Proof.
  induction l as [|q l IH]; simpl; [reflexivity|].
  intros Hn. apply not_elem_of_cons in Hn as [Hne Hn].
  destruct (decide (q = p)); [congruence|]. rewrite IH by assumption. lia.
Qed.

Lemma occ_elem (p : coord) (l : list coord) : p ∈ l -> 1 <= occ p l.
Proof.
  induction l as [|q l IH]; simpl.
  - intros H. inversion H.
  - intros [<-|Hin]%elem_of_cons.
    + destruct (decide (p = p)); [|congruence]. pose proof (occ_nonneg p l). lia.
    + specialize (IH Hin). destruct (decide (q = p)); lia.
Qed.

Lemma occ_NoDup (p : coord) (l : list coord) : NoDup l -> occ p l <= 1.
Proof.
  induction 1 as [|q l Hq Hnd IH]; simpl; [lia|].
  destruct (decide (q = p)) as [->|Hne]; [|lia].
  rewrite occ_not_elem by assumption. lia.
Qed.

(** ** Geometry of the neighbourhood *)

Lemma elem_of_deltas (d : Z) : d ∈ deltas <-> -1 <= d <= 1.
Proof.
  unfold deltas. rewrite !elem_of_cons, elem_of_nil. lia.
Qed.

Lemma elem_of_neighbours (R C : Z) (p q : coord) :
  q ∈ neighbours R C p <->
  inb R C q /\ q <> p /\ -1 <= q.1 - p.1 <= 1 /\ -1 <= q.2 - p.2 <= 1.
Proof.
  unfold neighbours, inb. rewrite list_elem_of_bind. split.
  - intros (dr & (dc & Hq & Hdc)%list_elem_of_bind & Hdr).
    apply elem_of_deltas in Hdr, Hdc.
    destruct ((dr =? 0) && (dc =? 0)) eqn:E0; [inversion Hq|].
    destruct ((0 <=? p.1 + dr) && (p.1 + dr <? R) &&
              (0 <=? p.2 + dc) && (p.2 + dc <? C)) eqn:E1; [|inversion Hq].
    apply list_elem_of_singleton in Hq as ->. simpl.
    rewrite !andb_true_iff in E1. rewrite andb_false_iff in E0.
    destruct E1 as [[[?%Z.leb_le ?%Z.ltb_lt] ?%Z.leb_le] ?%Z.ltb_lt].
    split; [lia|]. split; [|lia].
    intros Heq. destruct p as [r c]. simpl in *. injection Heq as Hr Hc.
    destruct E0 as [?%Z.eqb_neq | ?%Z.eqb_neq]; lia.
  - intros (Hin & Hne & Hr & Hc).
    exists (q.1 - p.1). split; [|apply elem_of_deltas; lia].
    apply list_elem_of_bind. exists (q.2 - p.2).
    split; [|apply elem_of_deltas; lia].
    replace (p.1 + (q.1 - p.1)) with q.1 by lia.
    replace (p.2 + (q.2 - p.2)) with q.2 by lia.
    destruct ((q.1 - p.1 =? 0) && (q.2 - p.2 =? 0)) eqn:E0.
    { exfalso. apply andb_true_iff in E0 as [?%Z.eqb_eq ?%Z.eqb_eq].
      apply Hne. destruct p, q; simpl in *. f_equal; lia. }
    assert ((0 <=? q.1) && (q.1 <? R) && (0 <=? q.2) && (q.2 <? C) = true) as ->.
    { rewrite !andb_true_iff, !Z.leb_le, !Z.ltb_lt. lia. }
    destruct q; apply list_elem_of_singleton; reflexivity.
Qed.

Lemma neighbours_inb (R C : Z) (p : coord) : Forall (inb R C) (neighbours R C p).
Proof. apply Forall_forall. intros q Hq. now apply elem_of_neighbours in Hq. Qed.

Lemma neighbours_length (R C : Z) (p : coord) :
  (length (neighbours R C p) <= 8)%nat.
Proof.
  unfold neighbours, deltas. simpl.
  rewrite !length_app.
  repeat match goal with
  | |- context [if ?b then _ else _] => destruct b
  end; simpl; lia.
Qed.

Lemma neighbours_NoDup (R C : Z) (p : coord) : NoDup (neighbours R C p).
Proof.
  unfold neighbours. apply NoDup_bind.
  - intros dr1 dr2 q _ _ (dc1 & H1 & _)%list_elem_of_bind
      (dc2 & H2 & _)%list_elem_of_bind.
    repeat match goal with
    | H : _ ∈ (if ?b then _ else _) |- _ => destruct b
    | H : _ ∈ [] |- _ => inversion H
    | H : _ ∈ [_] |- _ => apply list_elem_of_singleton in H
    end.
    assert (p.1 + dr1 = p.1 + dr2) by congruence. lia.
  - intros dr _. apply NoDup_bind.
    + intros dc1 dc2 q _ _ H1 H2.
      repeat match goal with
      | H : _ ∈ (if ?b then _ else _) |- _ => destruct b
      | H : _ ∈ [] |- _ => inversion H
      | H : _ ∈ [_] |- _ => apply list_elem_of_singleton in H
      end.
      assert (p.2 + dc1 = p.2 + dc2) by congruence. lia.
    + intros dc _.
      repeat match goal with
      | |- context [if ?b then _ else _] => destruct b
      end; try apply NoDup_nil_2; apply NoDup_singleton.
    + unfold deltas. repeat (apply NoDup_cons; split;
        [rewrite ?elem_of_cons, ?elem_of_nil; lia|]). apply NoDup_nil_2.
  - unfold deltas. repeat (apply NoDup_cons; split;
      [rewrite ?elem_of_cons, ?elem_of_nil; lia|]). apply NoDup_nil_2.
Qed.

Lemma neighbours_around (R C : Z) (f p : coord) :
  p ∈ neighbours R C f -> f ∈ around p.
Proof.
  intros (_ & Hne & Hr & Hc)%elem_of_neighbours.
  destruct f as [fr fc], p as [pr pc]. unfold around. simpl in *.
  assert (fr <> pr \/ fc <> pc) by (destruct (decide (fr = pr)); [right; congruence | left; assumption]).
  rewrite !elem_of_cons.
  assert (Hcases : (fr = pr - 1 \/ fr = pr \/ fr = pr + 1) /\
                   (fc = pc - 1 \/ fc = pc \/ fc = pc + 1)) by lia.
  destruct Hcases as [[-> | [-> | ->]] [-> | [-> | ->]]]; try tauto; lia.
Qed.

Lemma hits_nonneg (R C : Z) (fl : list coord) (p : coord) : 0 <= hits R C fl p.
Proof.
  induction fl as [|f fl IH]; simpl; [lia|].
  pose proof (occ_nonneg p (neighbours R C f)). lia.
Qed.

(** A cell is emplaced at most once by each flashing neighbour. *)
Lemma hits_filter (R C : Z) (fl : list coord) (p : coord) :
  hits R C fl p = Z.of_nat (length (filter (fun f => p ∈ neighbours R C f) fl)).
Proof.
  induction fl as [|f fl IH]; simpl; [reflexivity|].
  rewrite filter_cons. destruct (decide (p ∈ neighbours R C f)) as [Hin|Hn].
  - pose proof (occ_elem _ _ Hin). pose proof (occ_NoDup p _ (neighbours_NoDup R C f)).
    simpl. lia.
  - rewrite (occ_not_elem _ _ Hn). lia.
Qed.

Lemma hits_le_8 (R C : Z) (fl : list coord) (p : coord) :
  NoDup fl -> hits R C fl p <= 8.
Proof.
  intros Hnd. rewrite hits_filter.
  assert (length (filter (fun f => p ∈ neighbours R C f) fl) <= length (around p))%nat.
  { apply submseteq_length, NoDup_submseteq.
    - now apply NoDup_filter.
    - intros f [Hf _]%list_elem_of_filter. eapply neighbours_around, Hf. }
  simpl in *. lia.
Qed.

Lemma hits_not_in (R C : Z) (fl : list coord) (p : coord) :
  (forall f, f ∈ fl -> p ∉ neighbours R C f) -> hits R C fl p = 0.
Proof.
  induction fl as [|f fl IH]; simpl; [reflexivity|]. intros H.
  rewrite occ_not_elem by (apply H; left).
  rewrite IH; [lia|]. intros g Hg. apply H. now right.
Qed.

(** ** The initial queue *)

Lemma elem_of_all_cells (R C : Z) (p : coord) : p ∈ all_cells R C <-> inb R C p.
Proof.
  unfold all_cells, inb. rewrite list_elem_of_bind. split.
  - intros (r & (c & Hp & Hc)%list_elem_of_bind & Hr).
    apply list_elem_of_singleton in Hp as ->.
    apply elem_of_seqZ in Hr, Hc. simpl. lia.
  - intros [Hr Hc]. exists p.1. split; [|apply elem_of_seqZ; lia].
    apply list_elem_of_bind. exists p.2. split; [|apply elem_of_seqZ; lia].
    destruct p; apply list_elem_of_singleton; reflexivity.
Qed.

Lemma all_cells_NoDup (R C : Z) : NoDup (all_cells R C).
Proof.
  unfold all_cells. apply NoDup_bind.
  - intros r1 r2 q _ _ (c1 & H1 & _)%list_elem_of_bind
      (c2 & H2 & _)%list_elem_of_bind.
    apply list_elem_of_singleton in H1, H2. congruence.
  - intros r _. apply NoDup_bind.
    + intros c1 c2 q _ _ H1 H2.
      apply list_elem_of_singleton in H1, H2. congruence.
    + intros c _. apply NoDup_singleton.
    + apply NoDup_seqZ.
  - apply NoDup_seqZ.
Qed.

Lemma length_bind_const {A B : Type} (f : A -> list B) (n : nat) (l : list A) :
  (forall x, length (f x) = n) -> length (l ≫= f) = (length l * n)%nat.
Proof.
  intros Hf. induction l as [|x l IH]; [reflexivity|].
  rewrite bind_cons, length_app, Hf, IH. simpl. lia.
Qed.

Lemma all_cells_length (R C : Z) :
  length (all_cells R C) = (Z.to_nat R * Z.to_nat C)%nat.
Proof.
  unfold all_cells.
  rewrite (length_bind_const _ (Z.to_nat C)), length_seqZ; [reflexivity|].
  intros r. rewrite (length_bind_const _ 1%nat), length_seqZ; [lia|].
  reflexivity.
Qed.

Lemma occ_all_cells (R C : Z) (p : coord) : inb R C p -> occ p (all_cells R C) = 1.
Proof.
  intros Hp. apply elem_of_all_cells, occ_elem in Hp.
  pose proof (occ_NoDup p _ (all_cells_NoDup R C)). lia.
Qed.

(** ** The invariant holds along the loop *)

Section Loop.
Variables (g0 : grid) (R C : Z).

Lemma Inv_init : Inv g0 R C (all_cells R C) g0 (History (all_cells R C) []).
Proof.
  split; simpl.
  - reflexivity.
  - apply Forall_forall. intros p. apply elem_of_all_cells.
  - exists []. reflexivity.
  - lia.
  - constructor.
  - apply NoDup_nil_2.
  - exact I.
  - intros p Hp. unfold visits. simpl. rewrite occ_all_cells by assumption. lia.
  - intros p v0 Hp Hv. unfold visits. simpl.
    rewrite occ_all_cells by assumption. rewrite Hv. reflexivity.
  - intros p v0 Hp Hv. unfold visits. simpl.
    rewrite occ_all_cells by assumption. split.
    + intros H. inversion H.
    + intros (j & Hj & _). lia.
  - intros p Hp _. now apply elem_of_all_cells.
  - reflexivity.
Qed.

(** The front of the queue is a cell of the rectangle. *)
Lemma Inv_front (p : coord) (Q : list coord) (g : grid) (h : history) :
  Inv g0 R C (p :: Q) g h -> inb R C p.
Proof.
  intros HI. destruct (inv_enq_queue _ _ _ _ _ _ HI) as [done Hd].
  pose proof (inv_enq_inb _ _ _ _ _ _ HI) as Hall.
  rewrite Hd in Hall. apply Forall_app in Hall as [_ Hall].
  now apply Forall_cons in Hall as [Hp _].
Qed.

(** What the front cell holds, in terms of the grid at loop entry. *)
Lemma Inv_front_val (p : coord) (Q : list coord) (g : grid) (h : history)
    (v : Z) :
  Inv g0 R C (p :: Q) g h -> cell g p = Some v ->
  exists v0, cell g0 p = Some v0 /\
             v = bump v0 (visits R C (p :: Q) (flashes h) p) /\
             0 <= visits R C (p :: Q) (flashes h) p <= 8.
Proof.
  intros HI Hv. pose proof (Inv_front _ _ _ _ HI) as Hp.
  assert (is_Some (cell g0 p)) as [v0 Hv0].
  { eapply cell_shape; [exact (inv_shape _ _ _ _ _ _ HI) | eauto]. }
  exists v0. split; [exact Hv0|]. split.
  - pose proof (inv_val _ _ _ _ _ _ HI p v0 Hp Hv0). congruence.
  - split; [exact (inv_visits _ _ _ _ _ _ HI p Hp)|].
    pose proof (hits_le_8 R C (flashes h) p (inv_fl_nodup _ _ _ _ _ _ HI)).
    unfold visits. simpl. destruct (decide (p = p)); [|congruence].
    pose proof (occ_nonneg p Q). lia.
Qed.

Lemma visits_pop (p q : coord) (Q : list coord) (fl : list coord) :
  visits R C Q fl q =
  visits R C (p :: Q) fl q + (if decide (p = q) then 1 else 0).
Proof. unfold visits. simpl. lia. Qed.

Lemma visits_flash (p q : coord) (Q : list coord) (fl : list coord) :
  visits R C (Q ++ neighbours R C p) (p :: fl) q =
  visits R C (p :: Q) fl q + (if decide (p = q) then 1 else 0).
Proof. unfold visits. simpl. rewrite occ_app. lia. Qed.

(** The effect of [levels[r][c]++] on the invariant's view of the cells,
    whichever branch the flash check took. *)
Lemma Inv_cells (p : coord) (Q Q' : list coord) (g : grid)
    (fl fl' : list coord) (v : Z) :
  (forall q, visits R C Q' fl' q =
             visits R C (p :: Q) fl q + (if decide (p = q) then 1 else 0)) ->
  (forall q, inb R C q -> 0 <= visits R C (p :: Q) fl q) ->
  (forall q v0, inb R C q -> cell g0 q = Some v0 ->
     cell g q = Some (bump v0 (visits R C (p :: Q) fl q))) ->
  cell g p = Some v ->
  forall q v0, inb R C q -> cell g0 q = Some v0 ->
    cell (set_cell g p (char_incr v)) q = Some (bump v0 (visits R C Q' fl' q)).
Proof.
  intros Hvis Hpos Hval Hv q v0 Hq Hv0. rewrite Hvis.
  destruct (decide (p = q)) as [<-|Hne].
  - rewrite (cell_set_same _ _ v) by assumption.
    pose proof (Hval p v0 Hq Hv0) as Hg. rewrite Hv in Hg. injection Hg as ->.
    rewrite bump_succ; [reflexivity | now apply Hpos].
  - rewrite (cell_set_other _ _ _ v) by (assumption || congruence).
    rewrite Z.add_0_r. now apply Hval.
Qed.

(** A dequeue whose flash check fails. *)
Lemma Inv_plain (p : coord) (Q : list coord) (g : grid) (h : history) (v : Z) :
  Inv g0 R C (p :: Q) g h -> cell g p = Some v -> v <> ch9 ->
  Inv g0 R C Q (set_cell g p (char_incr v)) h.
Proof.
  intros HI Hv Hne.
  pose proof (Inv_front _ _ _ _ HI) as Hp.
  destruct (Inv_front_val _ _ _ _ _ HI Hv) as (v0 & Hv0 & Hbump & Hd).
  destruct HI as [Hsh Hinb [done Hdone] Hlen Hfi Hnd Hca Hvis Hval Hfl Hout Hfr].
  split.
  - now rewrite set_cell_shape.
  - exact Hinb.
  - exists (done ++ [p]). rewrite Hdone, <- app_assoc. reflexivity.
  - exact Hlen.
  - exact Hfi.
  - exact Hnd.
  - exact Hca.
  - intros q Hq. rewrite (visits_pop p). specialize (Hvis q Hq).
    destruct (decide (p = q)); lia.
  - eapply Inv_cells; eauto. intros q. apply visits_pop.
  - intros q w0 Hq Hw0. rewrite (Hfl q w0 Hq Hw0), (visits_pop p q Q).
    destruct (decide (p = q)) as [<-|Hpq].
    + split; intros (j & Hj & Hb).
      * exists j. split; [lia | exact Hb].
      * assert (w0 = v0) as -> by congruence.
        destruct (decide (j = visits R C (p :: Q) (flashes h) p)) as [->|Hjd].
        -- congruence.
        -- exists j. split; [lia | exact Hb].
    + rewrite Z.add_0_r. reflexivity.
  - intros q Hq Hq0. specialize (Hout q Hq Hq0).
    apply elem_of_cons in Hout as [->|Hin]; [congruence | exact Hin].
  - intros q Hq. rewrite <- (Hfr q Hq).
    apply (cell_set_other _ _ _ v); [assumption | congruence].
Qed.

(** A dequeue whose flash check succeeds. *)
Lemma Inv_flash (p : coord) (Q : list coord) (g : grid) (h : history) :
  Inv g0 R C (p :: Q) g h -> cell g p = Some ch9 ->
  Inv g0 R C (Q ++ neighbours R C p) (set_cell g p (char_incr ch9))
      (History (enqueued h ++ neighbours R C p) (p :: flashes h)).
Proof.
  intros HI Hv.
  pose proof (Inv_front _ _ _ _ HI) as Hp.
  destruct (Inv_front_val _ _ _ _ _ HI Hv) as (v0 & Hv0 & Hbump & Hd).
  destruct HI as [Hsh Hinb [done Hdone] Hlen Hfi Hnd Hca Hvis Hval Hfl Hout Hfr].
  split; simpl.
  - now rewrite set_cell_shape.
  - apply Forall_app. split; [exact Hinb | apply neighbours_inb].
  - exists (done ++ [p]). rewrite Hdone, <- !app_assoc. reflexivity.
  - rewrite length_app, Hlen. lia.
  - constructor; assumption.
  - apply NoDup_cons. split; [|exact Hnd].
    intros (j & Hj & Hb)%(Hfl p v0 Hp Hv0).
    apply (bump_inj v0 j (visits R C (p :: Q) (flashes h) p)); [lia | lia | congruence].
  - split; [|exact Hca].
    exists v0, (visits R C (p :: Q) (flashes h) p).
    split; [exact Hv0|]. split; [|congruence].
    split; [lia|]. unfold visits. simpl. destruct (decide (p = p)); [|congruence].
    pose proof (occ_nonneg p Q). lia.
  - intros q Hq. rewrite visits_flash. specialize (Hvis q Hq).
    destruct (decide (p = q)); lia.
  - eapply Inv_cells; eauto. intros q. apply visits_flash.
  - intros q w0 Hq Hw0. rewrite visits_flash, elem_of_cons.
    destruct (decide (p = q)) as [<-|Hpq].
    + assert (w0 = v0) as -> by congruence. split.
      * intros _. exists (visits R C (p :: Q) (flashes h) p).
        split; [lia | congruence].
      * intros _. now left.
    + rewrite Z.add_0_r, <- (Hfl q w0 Hq Hw0). split; [|tauto].
      intros [->|Hin]; [congruence | exact Hin].
  - intros q Hq Hq0. specialize (Hout q Hq Hq0). apply elem_of_app. left.
    apply elem_of_cons in Hout as [->|Hin]; [congruence | exact Hin].
  - intros q Hq. rewrite <- (Hfr q Hq).
    apply (cell_set_other _ _ _ ch9); [assumption | congruence].
Qed.

End Loop.

(** ** The loop terminates and establishes the invariant at exit *)

Lemma drain_log_erase (fuel : nat) (R C : Z) (Q : list coord) (g : grid)
    (n : Z) (h : history) :
  drain fuel R C Q g n = forget <$> drain_log fuel R C Q g n h.
Proof.
  revert Q g n h. induction fuel as [|fuel IH]; intros Q g n h.
  - destruct Q; reflexivity.
  - destruct Q as [|p Q]; [reflexivity|]. simpl.
    destruct (cell g p) as [v|]; [|reflexivity].
    destruct (v =? ch9); apply IH.
Qed.

(** More fuel never changes a result. *)
Lemma drain_log_more (fuel fuel' : nat) (R C : Z) (Q : list coord) (g : grid)
    (n : Z) (h : history) (o : outcome (grid * Z * history)) :
  (fuel <= fuel')%nat ->
  drain_log fuel R C Q g n h = Some o -> drain_log fuel' R C Q g n h = Some o.
Proof.
  revert fuel' Q g n h. induction fuel as [|fuel IH]; intros fuel' Q g n h Hle.
  - destruct Q; [|discriminate]. destruct fuel'; exact id.
  - destruct fuel' as [|fuel']; [lia|].
    destruct Q as [|p Q]; [exact id|]. simpl.
    destruct (cell g p) as [v|]; [|exact id].
    destruct (v =? ch9); apply IH; lia.
Qed.

Lemma Inv_flashes_length (g0 : grid) (R C : Z) (Q : list coord) (g : grid)
    (h : history) :
  Inv g0 R C Q g h -> (length (flashes h) <= length (all_cells R C))%nat.
Proof.
  intros HI. apply submseteq_length, NoDup_submseteq.
  - exact (inv_fl_nodup _ _ _ _ _ _ HI).
  - intros f Hf. apply elem_of_all_cells.
    revert f Hf. apply Forall_forall. exact (inv_fl_inb _ _ _ _ _ _ HI).
Qed.

Lemma drain_log_spec (g0 : grid) (R C : Z) (fuel : nat) :
  forall (Q : list coord) (g : grid) (n : Z) (h : history),
  Inv g0 R C Q g h -> (variant R C Q h <= fuel)%nat ->
  (exists g' h',
     drain_log fuel R C Q g n h =
       Some (Returns (g', n + Z.of_nat (length (flashes h'))
                            - Z.of_nat (length (flashes h)), h')) /\
     Inv g0 R C [] g' h') \/
  (drain_log fuel R C Q g n h = Some Undefined /\
   exists p, inb R C p /\ cell g0 p = None).
Proof.
  induction fuel as [|fuel IH]; intros Q g n h HI Hfuel.
  - destruct Q as [|p Q]; [|unfold variant in Hfuel; simpl in Hfuel; lia].
    left. exists g, h. split; [|exact HI].
    simpl. now replace (n + Z.of_nat (length (flashes h)) - Z.of_nat (length (flashes h))) with n by lia.
  - destruct Q as [|p Q].
    { left. exists g, h. split; [|exact HI].
      simpl. now replace (n + Z.of_nat (length (flashes h)) - Z.of_nat (length (flashes h))) with n by lia. }
    simpl. destruct (cell g p) as [v|] eqn:Hv.
    + destruct (Z.eqb_spec v ch9) as [->|Hne].
      * pose proof (Inv_flash _ _ _ _ _ _ _ HI Hv) as HI'.
        pose proof (Inv_flashes_length _ _ _ _ _ _ HI') as Hlen.
        pose proof (neighbours_length R C p) as Hnb.
        destruct (IH _ _ (n + 1) _ HI') as [(g' & h' & Hrun & Hfin) | Hub].
        { unfold variant in *. simpl in *. rewrite length_app. lia. }
        -- left. exists g', h'. split; [|exact Hfin].
           rewrite Hrun. simpl.
           now replace (n + 1 + Z.of_nat (length (flashes h'))
                        - Z.of_nat (S (length (flashes h))))
             with (n + Z.of_nat (length (flashes h'))
                   - Z.of_nat (length (flashes h))) by lia.
        -- right. exact Hub.
      * pose proof (Inv_plain _ _ _ _ _ _ _ _ HI Hv Hne) as HI'.
        apply IH; [exact HI'|]. unfold variant in *. simpl in *. lia.
    + right. split; [reflexivity|]. exists p.
      split; [exact (Inv_front _ _ _ _ _ _ _ HI)|].
      eapply cell_shape_None; [exact (inv_shape _ _ _ _ _ _ HI) | exact Hv].
Qed.

(** ** The final sweep *)

Lemma reset_idem (v : Z) : reset (reset v) = reset v.
Proof.
  unfold reset, ch0, ch9. destruct (Z.gtb_spec v 57); [reflexivity|].
  destruct (Z.gtb_spec v 57); [lia | reflexivity].
Qed.

Lemma sweep_spec (cs : list coord) :
  forall g : grid,
  (forall p, p ∈ cs -> is_Some (cell g p)) ->
  exists g', sweep cs g = Returns g' /\
    map length g' = map length g /\
    forall q, cell g' q =
              if decide (q ∈ cs) then reset <$> cell g q else cell g q.
Proof.
  induction cs as [|p cs IH]; intros g Hin.
  - exists g. split; [reflexivity|]. split; [reflexivity|]. intros q.
    destruct (decide (q ∈ [])) as [H|_]; [inversion H | reflexivity].
  - simpl. destruct (Hin p ltac:(left)) as [v Hv]. rewrite Hv.
    set (g1 := if v >? ch9 then set_cell g p ch0 else g).
    assert (Hsh : map length g1 = map length g).
    { unfold g1. destruct (v >? ch9); [apply set_cell_shape | reflexivity]. }
    assert (Hp : cell g1 p = Some (reset v)).
    { unfold g1, reset. destruct (v >? ch9);
        [eapply cell_set_same; exact Hv | exact Hv]. }
    assert (Hq : forall q, q <> p -> cell g1 q = cell g q).
    { intros q Hne. unfold g1. destruct (v >? ch9); [|reflexivity].
      eapply cell_set_other; [exact Hv | exact Hne]. }
    destruct (IH g1) as (g' & Hrun & Hsh' & Hcells).
    { intros q Hqin. eapply cell_shape; [symmetry; exact Hsh|].
      apply Hin. now right. }
    exists g'. split; [exact Hrun|]. split; [congruence|]. intros q.
    rewrite Hcells. destruct (decide (q = p)) as [->|Hne].
    + rewrite Hp, Hv. destruct (decide (p ∈ p :: cs)) as [_|Hn];
        [|exfalso; apply Hn; left].
      destruct (decide (p ∈ cs)); simpl; [now rewrite reset_idem | reflexivity].
    + rewrite (Hq q Hne).
      destruct (decide (q ∈ cs)) as [Hc|Hc], (decide (q ∈ p :: cs)) as [Hc'|Hc'];
        try reflexivity.
      * exfalso. apply Hc'. now right.
      * exfalso. apply elem_of_cons in Hc' as [?|?]; tauto.
Qed.

Lemma sweep_shape (cs : list coord) (g g' : grid) :
  sweep cs g = Returns g' -> map length g' = map length g.
Proof.
  revert g. induction cs as [|p cs IH]; intros g; simpl.
  - intros [= ->]. reflexivity.
  - destruct (cell g p) as [v|]; [|discriminate].
    intros H%IH. rewrite H.
    destruct (v >? ch9); [apply set_cell_shape | reflexivity].
Qed.

Lemma drain_shape (fuel : nat) (R C : Z) :
  forall (Q : list coord) (g : grid) (n : Z) (g' : grid) (n' : Z),
  drain fuel R C Q g n = Some (Returns (g', n')) ->
  map length g' = map length g.
Proof.
  induction fuel as [|fuel IH]; intros Q g n g' n'.
  - destruct Q; [|discriminate]. intros [= -> _]. reflexivity.
  - destruct Q as [|p Q]; [intros [= -> _]; reflexivity|]. simpl.
    destruct (cell g p) as [v|]; [|discriminate].
    destruct (v =? ch9); intros H%IH; rewrite H; apply set_cell_shape.
Qed.

(** ** One whole step *)

Lemma step_fuel_erase (fuel : nat) (g : grid) :
  step_fuel fuel g = forget <$> step_log_fuel fuel g.
Proof.
  unfold step_fuel, step_log_fuel. destruct g as [|row0 g]; [reflexivity|].
  rewrite (drain_log_erase _ _ _ _ _ _
             (History (all_cells (Z.of_nat (length (row0 :: g)))
                                 (Z.of_nat (length row0))) [])).
  destruct (drain_log _ _ _ _ _ _ _) as [[[[g1 n] h]| |]|]; simpl; try reflexivity.
  destruct (sweep _ g1); reflexivity.
Qed.

Lemma step_erase (g : grid) : step g = forget <$> step_log g.
Proof. apply step_fuel_erase. Qed.

Lemma all_cells_count (g : grid) :
  length (all_cells (Z.of_nat (length g)) (Z.of_nat (width g))) = cell_count g.
Proof.
  rewrite all_cells_length, !Nat2Z.id. destruct g; reflexivity.
Qed.

(** [covered] says exactly that every access of the two loops is inside. *)
Lemma covered_cells (g : grid) :
  covered g = true <->
  forall p, inb (Z.of_nat (length g)) (Z.of_nat (width g)) p -> is_Some (cell g p).
Proof.
  unfold covered. rewrite forallb_forall. split.
  - intros Hall p [Hr Hc].
    assert (is_Some (g !! Z.to_nat p.1)) as [row Hrow].
    { apply lookup_lt_is_Some. lia. }
    assert (Hle : (width g <= length row)%nat).
    { apply Nat.leb_le, Hall, list_elem_of_In, list_elem_of_lookup. eauto. }
    assert (is_Some (row !! Z.to_nat p.2)) as [v Hv].
    { apply lookup_lt_is_Some. lia. }
    exists v. apply cell_Some. split; [lia|]. split; [lia|]. eauto.
  - intros Hall row Hin. apply Nat.leb_le.
    apply list_elem_of_In, list_elem_of_lookup in Hin as [i Hi].
    destruct (width g) as [|w] eqn:Hw; [lia|].
    destruct (Hall (Z.of_nat i, Z.of_nat w)) as [v Hv].
    { unfold inb. simpl. apply lookup_lt_Some in Hi. lia. }
    apply cell_Some in Hv as (_ & _ & row' & Hr' & Hc'). simpl in *.
    rewrite Nat2Z.id in Hr', Hc'. assert (row' = row) as -> by congruence.
    apply lookup_lt_Some in Hc'. lia.
Qed.

Lemma visits_empty (R C : Z) (fl : list coord) (p : coord) :
  visits R C [] fl p = 1 + hits R C fl p.
Proof. unfold visits. simpl. lia. Qed.

(** With enough fuel a step on a non-empty grid either completes, when no
    row is shorter than row 0, or runs into an access outside a row. *)
Lemma step_log_fuel_spec (fuel : nat) (g : grid) :
  g <> [] -> (9 * cell_count g <= fuel)%nat ->
  (covered g = true /\
   exists g' n h, step_log_fuel fuel g = Some (Returns (g', n, h)) /\
                  Ran g g' n h) \/
  (covered g = false /\ step_log_fuel fuel g = Some Undefined).
Proof.
  intros Hne Hfuel. unfold step_log_fuel.
  destruct g as [|row0 rest] eqn:Hg; [congruence|]. rewrite <- Hg in *.
  assert (Hw : length row0 = width g) by (rewrite Hg; reflexivity).
  assert (Hlen : length (row0 :: rest) = length g) by (rewrite Hg; reflexivity).
  cbv zeta. rewrite Hw. clear Hw.
  set (R := Z.of_nat (length g)). set (C := Z.of_nat (width g)).
  pose proof (all_cells_count g) as Hcount. fold R C in Hcount.
  destruct (drain_log_spec g R C fuel (all_cells R C) g 0
              (History (all_cells R C) []) (Inv_init g R C))
    as [(g1 & h & Hrun & HI) | (Hrun & p & Hp & Hnone)].
  { unfold variant. simpl. lia. }
  - left.
    assert (Hcov : forall p, inb R C p -> is_Some (cell g p)).
    { intros p Hp. destruct (cell g p) eqn:E; [eauto|].
      pose proof (inv_outside _ _ _ _ _ _ HI p Hp E) as Hin. inversion Hin. }
    split; [apply covered_cells; exact Hcov|].
    destruct (sweep_spec (all_cells R C) g1) as (g' & Hsw & Hsh & Hcells).
    { intros p Hp%elem_of_all_cells. eapply cell_shape;
        [symmetry; exact (inv_shape _ _ _ _ _ _ HI) | auto]. }
    rewrite Hrun, Hsw. simpl in *. do 3 eexists. split; [reflexivity|].
    destruct HI as [Hsh1 Hinb _ Hl Hfi Hnd Hca Hvis Hval Hfl Hout Hfr].
    split; fold R C.
    + lia.
    + congruence.
    + exact Hinb.
    + rewrite Hl, Hcount. reflexivity.
    + exact Hfi.
    + exact Hnd.
    + exact Hca.
    + intros p v0 Hp Hv0. rewrite Hcells.
      destruct (decide (p ∈ all_cells R C)) as [_|Hn];
        [|exfalso; apply Hn, elem_of_all_cells, Hp].
      rewrite (Hval p v0 Hp Hv0), visits_empty. reflexivity.
    + intros p v0 Hp Hv0. rewrite (Hfl p v0 Hp Hv0), visits_empty.
      split; intros (j & Hj & Hb); exists j; (split; [lia | exact Hb]).
    + intros p Hp. rewrite Hcells.
      destruct (decide (p ∈ all_cells R C)) as [Hin%elem_of_all_cells|_];
        [tauto | apply Hfr, Hp].
  - right. rewrite Hrun. split; [|reflexivity].
    destruct (covered g) eqn:Hc; [|reflexivity].
    destruct (proj1 (covered_cells g) Hc p Hp). congruence.
Qed.

(** ** Valid grids *)

Lemma rectangular_covered (g : grid) : rectangular g = true -> covered g = true.
Proof.
  unfold rectangular, covered. rewrite !forallb_forall.
  intros H row Hin. apply Nat.leb_le. specialize (H row Hin).
  apply Nat.eqb_eq in H. lia.
Qed.

Lemma rectangular_inb (g : grid) (p : coord) (v : Z) :
  rectangular g = true -> cell g p = Some v ->
  inb (Z.of_nat (length g)) (Z.of_nat (width g)) p.
Proof.
  unfold rectangular. rewrite forallb_forall.
  intros H (H1 & H2 & row & Hr & Hc)%cell_Some.
  assert (length row = width g) as <-.
  { apply Nat.eqb_eq, H, list_elem_of_In, list_elem_of_lookup. eauto. }
  apply lookup_lt_Some in Hr, Hc. unfold inb. lia.
Qed.

Lemma digits_cell (g : grid) (p : coord) (v : Z) :
  forallb (forallb is_digit) g = true -> cell g p = Some v -> ch0 <= v <= ch9.
Proof.
  rewrite forallb_forall. intros H (_ & _ & row & Hr & Hc)%cell_Some.
  assert (Hrow : forallb is_digit row = true).
  { apply H, list_elem_of_In, list_elem_of_lookup. eauto. }
  rewrite forallb_forall in Hrow.
  assert (Hd : is_digit v = true).
  { apply Hrow, list_elem_of_In, list_elem_of_lookup. eauto. }
  unfold is_digit in Hd. apply andb_true_iff in Hd as [?%Z.leb_le ?%Z.leb_le]. lia.
Qed.

Lemma cells_digits (g : grid) :
  (forall p v, cell g p = Some v -> ch0 <= v <= ch9) ->
  forallb (forallb is_digit) g = true.
Proof.
  intros H. apply forallb_forall. intros row Hrow.
  apply forallb_forall. intros v Hv.
  apply list_elem_of_In, list_elem_of_lookup in Hrow as [i Hi].
  apply list_elem_of_In, list_elem_of_lookup in Hv as [j Hj].
  assert (Hc : cell g (Z.of_nat i, Z.of_nat j) = Some v).
  { apply cell_Some. simpl. rewrite !Nat2Z.id. split; [lia|]. split; [lia|]. eauto. }
  apply H in Hc. unfold is_digit. apply andb_true_iff.
  rewrite !Z.leb_le. lia.
Qed.

Lemma valid_grid_parts (g : grid) :
  valid_grid g = true <->
  g <> [] /\ rectangular g = true /\ forallb (forallb is_digit) g = true.
Proof.
  unfold valid_grid. rewrite !andb_true_iff, negb_true_iff, Nat.eqb_neq.
  destruct g; simpl; split; intros H; repeat split; try tauto; try lia;
    try discriminate; destruct H as [? ?]; congruence.
Qed.

(** The shape of a grid decides whether it is rectangular. *)
Lemma rectangular_shape (g g' : grid) :
  map length g = map length g' -> rectangular g = rectangular g'.
Proof.
  intros Hs. unfold rectangular.
  assert (Hw : width g = width g').
  { destruct g, g'; simpl in *; congruence. }
  rewrite <- Hw. generalize (width g) as w. clear Hw.
  revert g' Hs. induction g as [|row g IH]; intros [|row' g'] Hs w;
    simpl in *; try discriminate; [reflexivity|].
  injection Hs as Hl Hs. rewrite Hl. f_equal. now apply IH.
Qed.

Lemma shape_length (g g' : grid) :
  map length g = map length g' -> length g = length g'.
Proof. intros H. apply (f_equal length) in H. now rewrite !length_map in H. Qed.

(** Two grids of one shape with the same cells are equal. *)
Lemma grid_ext (g g' : grid) :
  map length g = map length g' ->
  (forall p, cell g p = cell g' p) -> g = g'.
Proof.
  intros Hs Hc. apply list_eq. intros i.
  pose proof (f_equal (fun l => l !! i) Hs) as Hi. simpl in Hi.
  change (map length) with (fmap (M:=list) (@length Z)) in Hi.
  rewrite !list_lookup_fmap in Hi.
  destruct (g !! i) as [row|] eqn:Hr, (g' !! i) as [row'|] eqn:Hr';
    try discriminate; [|reflexivity].
  f_equal. apply list_eq. intros j.
  specialize (Hc (Z.of_nat i, Z.of_nat j)). unfold cell in Hc. simpl in Hc.
  destruct (Z.ltb_spec (Z.of_nat i) 0); [lia|].
  destruct (Z.ltb_spec (Z.of_nat j) 0); [lia|].
  simpl in Hc. rewrite !Nat2Z.id, Hr, Hr' in Hc. exact Hc.
Qed.

(** On a valid grid the cells never wrap around: a cell flashes exactly when
    its value plus the number of flashing neighbours reaches ['9'], and it
    ends at ['0'] if it flashed and at its value plus one plus that number
    otherwise. *)
Lemma step_log_valid (fuel : nat) (g : grid) :
  valid_grid g = true -> (9 * cell_count g <= fuel)%nat ->
  exists g' n h,
    step_log_fuel fuel g = Some (Returns (g', n, h)) /\ Ran g g' n h /\
    forall p v0, cell g p = Some v0 ->
      let k := hits (Z.of_nat (length g)) (Z.of_nat (width g)) (flashes h) p in
      0 <= k <= 8 /\
      (p ∈ flashes h <-> ch9 <= v0 + k) /\
      cell g' p = Some (if decide (p ∈ flashes h) then ch0 else v0 + 1 + k) /\
      (p ∉ flashes h -> v0 + 1 + k <= ch9).
Proof.
  intros (Hne & Hrect & Hdig)%valid_grid_parts Hfuel.
  destruct (step_log_fuel_spec fuel g Hne Hfuel) as
    [(_ & g' & n & h & Hrun & Hran) | (Hcov & _)];
    [|rewrite (rectangular_covered g Hrect) in Hcov; discriminate].
  exists g', n, h. split; [exact Hrun|]. split; [exact Hran|].
  intros p v0 Hv0 k.
  pose proof (rectangular_inb g p v0 Hrect Hv0) as Hp.
  pose proof (digits_cell g p v0 Hdig Hv0) as Hd.
  assert (Hk : 0 <= k <= 8).
  { split; [apply hits_nonneg | apply hits_le_8, (ran_fl_nodup _ _ _ _ Hran)]. }
  assert (Hfl : p ∈ flashes h <-> ch9 <= v0 + k).
  { rewrite (ran_fl _ _ _ _ Hran p v0 Hp Hv0). fold k. split.
    - intros (j & Hj & Hb). rewrite bump_digit in Hb by lia. lia.
    - intros Hge. exists (ch9 - v0). split; [lia|].
      rewrite bump_digit by lia. lia. }
  split; [exact Hk|]. split; [exact Hfl|].
  rewrite (ran_val _ _ _ _ Hran p v0 Hp Hv0). fold k.
  rewrite bump_digit by lia. unfold reset.
  destruct (decide (p ∈ flashes h)) as [Hin|Hnin].
  - apply Hfl in Hin. destruct (Z.gtb_spec (v0 + (1 + k)) ch9); [|lia].
    split; [reflexivity | tauto].
  - assert (v0 + k < ch9) by (apply Z.nle_gt; intros ?; apply Hnin, Hfl; lia).
    destruct (Z.gtb_spec (v0 + (1 + k)) ch9); [lia|].
    split; [f_equal; lia | lia].
Qed.

(** ** Consequences for particular grids *)

Lemma holds_true (g : grid) (p : coord) (v : Z) :
  holds g p v = true <-> cell g p = Some v.
Proof.
  unfold holds. destruct (cell g p) as [w|]; [|split; discriminate].
  rewrite Z.eqb_eq. split; congruence.
Qed.

Lemma coord_eqb_eq (p q : coord) : coord_eqb p q = true <-> p = q.
Proof.
  unfold coord_eqb. rewrite andb_true_iff, !Z.eqb_eq.
  destruct p, q; simpl. split; [intros [-> ->]; reflexivity | intros [= -> ->]; auto].
Qed.

Lemma isolated_nine_parts (g : grid) (c : coord) :
  isolated_nine g c = true ->
  valid_grid g = true /\ cell g c = Some ch9 /\
  (forall q, q ∈ neighbours (Z.of_nat (length g)) (Z.of_nat (width g)) c ->
             cell g q = Some ch0) /\
  (forall q, cell g q = Some ch9 -> q = c).
Proof.
  unfold isolated_nine. cbv zeta. rewrite !andb_true_iff, !forallb_forall.
  intros [[[Hv Hc] Hn] Ho].
  pose proof Hv as (_ & Hrect & _)%valid_grid_parts.
  split; [exact Hv|]. split; [now apply holds_true|]. split.
  - intros q Hq. apply holds_true, Hn, list_elem_of_In, Hq.
  - intros q Hq. pose proof (rectangular_inb g q _ Hrect Hq) as Hin.
    apply elem_of_all_cells, list_elem_of_In, Ho in Hin.
    apply orb_true_iff in Hin as [Heq|Hneq]; [now apply coord_eqb_eq|].
    apply holds_true in Hq. rewrite Hq in Hneq. discriminate.
Qed.

(** With nothing at ['9'] to start from, nothing can flash. *)
Lemma caused_all_zero (g : grid) (R C : Z) (fl : list coord) :
  (forall p v, cell g p = Some v -> v = ch0) -> caused g R C fl -> fl = [].
Proof.
  intros Hz. induction fl as [|f fl IH]; [reflexivity|].
  intros [(v0 & j & Hv0 & Hj & Hb) Hca]. rewrite (IH Hca) in Hj. simpl in Hj.
  assert (j = 0) as -> by lia. apply Hz in Hv0 as ->. discriminate.
Qed.

(** With a single ['9'] surrounded by ['0'], only that cell can flash. *)
Lemma caused_lone (g : grid) (R C : Z) (c : coord) (fl : list coord) :
  (forall p v, cell g p = Some v -> ch0 <= v <= ch9) ->
  (forall q, q ∈ neighbours R C c -> cell g q = Some ch0) ->
  (forall q, cell g q = Some ch9 -> q = c) ->
  NoDup fl -> caused g R C fl -> forall f, f ∈ fl -> f = c.
Proof.
  intros Hdig Hnb Hone. induction fl as [|f fl IH]; intros Hnd Hca x Hx.
  { inversion Hx. }
  apply NoDup_cons in Hnd as [_ Hnd].
  destruct Hca as [(v0 & j & Hv0 & Hj & Hb) Hca].
  specialize (IH Hnd Hca).
  apply elem_of_cons in Hx as [->|Hx]; [|now apply IH].
  pose proof (hits_le_8 R C fl f Hnd) as H8.
  pose proof (Hdig f v0 Hv0) as Hd.
  rewrite bump_digit in Hb by lia.
  destruct (decide (f ∈ neighbours R C c)) as [Hin|Hout].
  - pose proof (Hnb f Hin) as H0. unfold ch0, ch9 in *.
    assert (v0 = 48) by congruence. lia.
  - rewrite hits_not_in in Hj.
    + apply Hone. rewrite Hv0. f_equal. lia.
    + intros y Hy. now rewrite (IH y Hy).
Qed.

Lemma NoDup_only (c : coord) (fl : list coord) :
  NoDup fl -> (forall f, f ∈ fl -> f = c) -> c ∈ fl -> fl = [c].
Proof.
  intros Hnd Hall Hc. destruct fl as [|a [|b fl]].
  - inversion Hc.
  - now rewrite (Hall a ltac:(left)).
  - exfalso. apply NoDup_cons in Hnd as [Hna _]. apply Hna.
    rewrite (Hall a ltac:(left)), <- (Hall b ltac:(right; left)). left.
Qed.

(** ** Counting the iterations *)

Lemma emplaced_le (R C : Z) (fl : list coord) :
  (emplaced R C fl <= 8 * length fl)%nat.
Proof.
  induction fl as [|f fl IH]; simpl; [lia|].
  pose proof (neighbours_length R C f). lia.
Qed.

(** A run that returns has made exactly one iteration per coordinate that
    was in the queue at its start or was emplaced during it. *)
Lemma drain_log_exact (R C : Z) (fuel : nat) :
  forall (Q : list coord) (g : grid) (n : Z) (h : history)
         (g' : grid) (n' : Z) (h' : history),
  drain_log fuel R C Q g n h = Some (Returns (g', n', h')) ->
  (length (enqueued h) <= length (enqueued h'))%nat /\
  drain_log (length Q + length (enqueued h') - length (enqueued h)) R C Q g n h
    = Some (Returns (g', n', h')).
Proof.
  induction fuel as [|fuel IH]; intros Q g n h g' n' h'.
  - destruct Q; [|discriminate]. intros [= -> -> ->]. split; [lia|].
    simpl. now rewrite Nat.sub_diag.
  - destruct Q as [|p Q].
    { intros [= -> -> ->]. split; [lia|]. simpl. now rewrite Nat.sub_diag. }
    intros Hrun. cbn [drain_log] in Hrun.
    destruct (cell g p) as [v|] eqn:Hv; [|discriminate].
    destruct (v =? ch9) eqn:Hf; apply IH in Hrun as [Hle Hrun];
      cbn [enqueued] in Hle, Hrun; rewrite ?length_app in Hle, Hrun;
      (split; [lia|]).
    + replace (length (p :: Q) + length (enqueued h') - length (enqueued h))%nat
        with (S (length Q + length (neighbours R C p) + length (enqueued h')
                 - (length (enqueued h) + length (neighbours R C p))))
        by (cbn [length]; lia).
      cbn [drain_log]. rewrite Hv, Hf. rewrite ?length_app in Hrun. exact Hrun.
    + replace (length (p :: Q) + length (enqueued h') - length (enqueued h))%nat
        with (S (length Q + length (enqueued h') - length (enqueued h)))
        by (cbn [length]; lia).
      cbn [drain_log]. rewrite Hv, Hf. exact Hrun.
Qed.

Lemma step_log_fuel_more (fuel fuel' : nat) (g : grid)
    (r : grid * Z * history) :
  (fuel <= fuel')%nat ->
  step_log_fuel fuel g = Some (Returns r) ->
  step_log_fuel fuel' g = Some (Returns r).
Proof.
  intros Hle. unfold step_log_fuel. destruct g as [|row0 g]; [discriminate|].
  cbv zeta.
  destruct (drain_log fuel _ _ _ _ _ _) as [[[[g1 n] h]| |]|] eqn:Hrun;
    try discriminate.
  now rewrite (drain_log_more _ _ _ _ _ _ _ _ _ Hle Hrun).
Qed.

(** The loop of a step that returns history [h] ran [length (enqueued h)]
    times. *)
Lemma step_log_fuel_exact (fuel : nat) (g g' : grid) (n : Z) (h : history) :
  step_log_fuel fuel g = Some (Returns (g', n, h)) ->
  step_log_fuel (length (enqueued h)) g = Some (Returns (g', n, h)).
Proof.
  unfold step_log_fuel. destruct g as [|row0 g]; [discriminate|]. cbv zeta.
  destruct (drain_log fuel _ _ _ _ _ _) as [[[[g1 n1] h1]| |]|] eqn:Hrun;
    try discriminate.
  destruct (sweep _ g1) as [g2| |] eqn:Hsw; try discriminate.
  intros [= -> -> ->].
  apply drain_log_exact in Hrun as [_ Hrun]. cbn [enqueued] in Hrun.
  rewrite Nat.add_comm, Nat.add_sub in Hrun. now rewrite Hrun, Hsw.
Qed.

(** [step] always produces an outcome: its fuel never runs out. *)
Lemma step_total (g : grid) : exists o, step g = Some o.
Proof.
  rewrite step_erase. unfold step_log.
  destruct g as [|row0 rest] eqn:Hg; [eexists; reflexivity|]. rewrite <- Hg.
  destruct (step_log_fuel_spec (9 * cell_count g) g) as
    [(_ & g' & n & h & -> & _) | (_ & ->)];
    [rewrite Hg; discriminate | lia | |]; eexists; reflexivity.
Qed.

(** The 1x1 grid holding ['9']: one flash, and the cell back at ['0']. *)
Example step_1x1 :
  step (grid_of_strings ["9"]) = Some (Returns (grid_of_strings ["0"], 1)).
Proof. reflexivity. Qed.

(** A cascade: the ['8'] next to the ['9'] is raised to ['9'] by its own
    dequeue and flashes when the first flash brings it back to the front. *)
Example step_cascade :
  step (grid_of_strings ["18"; "91"]) =
  Some (Returns (grid_of_strings ["40"; "04"], 2)).
Proof. reflexivity. Qed.

(** [num_flashes] never exceeds the number of cells, so it stays within
    [int] whenever [R * C] does. *)
Lemma num_flashes_bound (g g' : grid) (n : Z) (h : history) :
  Ran g g' n h -> 0 <= n <= Z.of_nat (cell_count g).
Proof.
  intros Hran. rewrite (ran_count _ _ _ _ Hran), <- all_cells_count.
  split; [lia|]. apply inj_le, submseteq_length, NoDup_submseteq.
  - exact (ran_fl_nodup _ _ _ _ Hran).
  - intros f Hf. apply elem_of_all_cells. revert f Hf. apply Forall_forall.
    exact (ran_fl_inb _ _ _ _ Hran).
Qed.

(** ** The specified properties of [step] *)

Lemma step_of_log (g g' : grid) (n : Z) (h : history) :
  step_log g = Some (Returns (g', n, h)) -> step g = Some (Returns (g', n)).
Proof. intros H. now rewrite step_erase, H. Qed.

Lemma step_fuel_of_log (fuel : nat) (g g' : grid) (n : Z) (h : history) :
  step_log_fuel fuel g = Some (Returns (g', n, h)) ->
  step_fuel fuel g = Some (Returns (g', n)).
Proof. intros H. now rewrite step_fuel_erase, H. Qed.

(** After a step on a valid grid every cell is a digit again. *)
Lemma step_valid_digits (g g' : grid) (n : Z) (h : history) :
  map length g' = map length g ->
  (forall p v0, cell g p = Some v0 ->
     let k := hits (Z.of_nat (length g)) (Z.of_nat (width g)) (flashes h) p in
     0 <= k <= 8 /\
     (p ∈ flashes h <-> ch9 <= v0 + k) /\
     cell g' p = Some (if decide (p ∈ flashes h) then ch0 else v0 + 1 + k) /\
     (p ∉ flashes h -> v0 + 1 + k <= ch9)) ->
  forallb (forallb is_digit) g = true ->
  forall p v, cell g' p = Some v -> ch0 <= v <= ch9.
Proof.
  intros Hsh Hcells Hdig p v Hv.
  assert (is_Some (cell g p)) as [v0 Hv0] by (eapply cell_shape; eauto).
  destruct (Hcells p v0 Hv0) as (Hk & _ & Hg' & Hle).
  pose proof (digits_cell g p v0 Hdig Hv0) as Hd.
  rewrite Hg' in Hv. injection Hv as <-.
  destruct (decide (p ∈ flashes h)) as [_|Hn]; [unfold ch0, ch9; lia|].
  specialize (Hle Hn). lia.
Qed.

(** C1: for every non-empty rectangular grid of digits, one call of [step]
    returns, leaves a grid of the same kind (every cell back in ['0'..'9'],
    nothing above the flash threshold), and the value it returns is the
    number of flashes of that step: the number of successful flash checks,
    which is also the number of cells the step left at ['0']. *)
Theorem step_cells_in_range (g : grid) :
  valid_grid g = true ->
  exists g' n h,
    step g = Some (Returns (g', n)) /\
    step_log g = Some (Returns (g', n, h)) /\
    valid_grid g' = true /\
    (forall p v, cell g' p = Some v -> ch0 <= v <= ch9) /\
    n = Z.of_nat (length (flashes h)) /\
    n = Z.of_nat (length (filter (fun p => cell g' p = Some ch0)
                            (all_cells (Z.of_nat (length g))
                                       (Z.of_nat (width g))))).
Proof.
  intros Hv.
  destruct (step_log_valid (9 * cell_count g) g Hv (le_n _))
    as (g' & n & h & Hrun & Hran & Hcells).
  pose proof Hv as (Hne & Hrect & Hdig)%valid_grid_parts.
  pose proof (ran_shape _ _ _ _ Hran) as Hsh.
  pose proof (step_valid_digits g g' n h Hsh Hcells Hdig) as Hrange.
  exists g', n, h. split; [now apply (step_of_log _ _ _ h)|].
  split; [exact Hrun|]. split; [|split; [exact Hrange|split]].
  - apply valid_grid_parts. split; [|split].
    + intros ->. apply shape_length in Hsh. destruct g; [congruence | discriminate].
    + now rewrite (rectangular_shape g' g Hsh).
    + now apply cells_digits.
  - exact (ran_count _ _ _ _ Hran).
  - rewrite (ran_count _ _ _ _ Hran). f_equal. apply Permutation_length.
    apply NoDup_Permutation.
    + exact (ran_fl_nodup _ _ _ _ Hran).
    + apply NoDup_filter, all_cells_NoDup.
    + intros p. rewrite list_elem_of_filter, elem_of_all_cells. split.
      * intros Hin.
        assert (Hp : inb (Z.of_nat (length g)) (Z.of_nat (width g)) p).
        { revert p Hin. apply Forall_forall. exact (ran_fl_inb _ _ _ _ Hran). }
        split; [|exact Hp].
        destruct (proj1 (covered_cells g) (rectangular_covered g Hrect) p Hp)
          as [v0 Hv0].
        destruct (Hcells p v0 Hv0) as (_ & _ & Hg' & _). rewrite Hg'.
        destruct (decide (p ∈ flashes h)); [reflexivity | tauto].
      * intros [Hz Hp].
        destruct (proj1 (covered_cells g) (rectangular_covered g Hrect) p Hp)
          as [v0 Hv0].
        destruct (Hcells p v0 Hv0) as (Hk & _ & Hg' & _). rewrite Hg' in Hz.
        destruct (decide (p ∈ flashes h)) as [Hin|Hn]; [exact Hin|].
        pose proof (digits_cell g p v0 Hdig Hv0). injection Hz as Hz. lia.
Qed.

Lemma step_cells_in_range_witness :
  exists g' n h,
    step (grid_of_strings ["18"; "91"]) = Some (Returns (g', n)) /\
    step_log (grid_of_strings ["18"; "91"]) = Some (Returns (g', n, h)) /\
    valid_grid g' = true /\
    (forall p v, cell g' p = Some v -> ch0 <= v <= ch9) /\
    n = Z.of_nat (length (flashes h)) /\
    n = Z.of_nat (length (filter (fun p => cell g' p = Some ch0)
                            (all_cells 2 2))).
Proof. apply (step_cells_in_range (grid_of_strings ["18"; "91"])). reflexivity. Defined.

(** No cell passes the flash check twice in one step, whatever the grid. *)
Lemma flash_count_le_1 (fuel : nat) (g g' : grid) (n : Z) (h : history)
    (p : coord) :
  step_log_fuel fuel g = Some (Returns (g', n, h)) -> flash_count h p <= 1.
Proof.
  intros Hrun. apply occ_NoDup.
  assert (Hne : g <> []) by (intros ->; discriminate).
  destruct (step_log_fuel_spec (Nat.max fuel (9 * cell_count g)) g Hne
              (Nat.le_max_r _ _)) as
    [(_ & g2 & n2 & h2 & Hrun2 & Hran) | (_ & Hub)].
  - rewrite (step_log_fuel_more fuel _ g _ (Nat.le_max_l _ _) Hrun) in Hrun2.
    injection Hrun2 as <- <- <-. exact (ran_fl_nodup _ _ _ _ Hran).
  - rewrite (step_log_fuel_more fuel _ g _ (Nat.le_max_l _ _) Hrun) in Hub.
    discriminate.
Qed.

(** C2, as amended: on every valid grid one call of [step] makes each cell
    flash at most once. Every dequeue compares the current value with ['9']
    and then increments it, so a cell holds ['9'] at no more than one of its
    dequeues; a cell emplaced several times is incremented several times but
    flashes, and emplaces its neighbours, only once. *)
Theorem each_cell_flashes_at_most_once (g : grid) :
  valid_grid g = true ->
  exists g' n h,
    step_log g = Some (Returns (g', n, h)) /\
    NoDup (flashes h) /\
    forall p, flash_count h p <= 1.
Proof.
  intros Hv.
  destruct (step_log_valid (9 * cell_count g) g Hv (le_n _))
    as (g' & n & h & Hrun & Hran & _).
  exists g', n, h. split; [exact Hrun|].
  split; [exact (ran_fl_nodup _ _ _ _ Hran)|].
  intros p. exact (flash_count_le_1 _ _ _ _ _ p Hrun).
Qed.

Lemma each_cell_flashes_at_most_once_witness :
  exists g' n h,
    step_log (grid_of_strings ["989"; "898"; "989"]) = Some (Returns (g', n, h)) /\
    NoDup (flashes h) /\
    forall p, flash_count h p <= 1.
Proof.
  apply (each_cell_flashes_at_most_once (grid_of_strings ["989"; "898"; "989"])).
  reflexivity.
Defined.

(** C2, as stated, fails: there is no valid grid on which some cell passes
    the flash check more than once within a single call of [step]. On the
    3x3 grid of ['9']s, for one, the centre is emplaced nine times (once at
    the start and once by each of its eight neighbours) and flashes once. *)
Lemma no_cell_flashes_twice :
  (~ exists (g : grid) (g' : grid) (n : Z) (h : history) (p : coord),
       valid_grid g = true /\
       step_log g = Some (Returns (g', n, h)) /\
       1 < flash_count h p) /\
  (exists g' n h,
     step_log (grid_of_strings ["999"; "999"; "999"]) =
       Some (Returns (g', n, h)) /\
     occ (1, 1) (enqueued h) = 9 /\ flash_count h (1, 1) = 1).
Proof.
  split.
  - intros (g & g' & n & h & p & _ & Hrun & Hgt).
    pose proof (flash_count_le_1 _ _ _ _ _ p Hrun). lia.
  - do 3 eexists. split; [vm_compute; reflexivity|].
    split; vm_compute; reflexivity.
Qed.

(** C3, as amended: on every valid grid whose only ['9'] is at [c], with
    every in-bounds neighbour of [c] at ['0'], one call of [step] returns
    exactly 1, leaves [c] at ['0'] and raises each in-bounds neighbour of
    [c] by exactly 2 (one for the increment every cell receives, one for
    the flash of [c]); every other cell is raised by exactly 1. *)
Theorem isolated_nine_step (g : grid) (c : coord) :
  isolated_nine g c = true ->
  lone_flash 2 g c /\
  exists g', step g = Some (Returns (g', 1)) /\
    forall q v, cell g q = Some v -> q <> c ->
      q ∉ neighbours (Z.of_nat (length g)) (Z.of_nat (width g)) c ->
      cell g' q = Some (v + 1).
Proof.
  intros (Hv & Hc & Hnb & Hone)%isolated_nine_parts.
  destruct (step_log_valid (9 * cell_count g) g Hv (le_n _))
    as (g' & n & h & Hrun & Hran & Hcells).
  pose proof Hv as (Hne & Hrect & Hdig)%valid_grid_parts.
  assert (Hall : forall f, f ∈ flashes h -> f = c).
  { apply (caused_lone g (Z.of_nat (length g)) (Z.of_nat (width g)) c).
    - intros p v. apply digits_cell, Hdig.
    - exact Hnb.
    - exact Hone.
    - exact (ran_fl_nodup _ _ _ _ Hran).
    - exact (ran_fl_caused _ _ _ _ Hran). }
  assert (Hcin : c ∈ flashes h).
  { destruct (Hcells c ch9 Hc) as (Hk & Hfl & _). apply Hfl. lia. }
  assert (Hfl : flashes h = [c]).
  { apply NoDup_only; [exact (ran_fl_nodup _ _ _ _ Hran) | exact Hall | exact Hcin]. }
  assert (Hn : n = 1) by (rewrite (ran_count _ _ _ _ Hran), Hfl; reflexivity).
  subst n. apply step_of_log in Hrun.
  assert (Hother : forall q, q <> c -> q ∉ flashes h).
  { intros q Hq Hin. apply Hq, Hall, Hin. }
  split.
  - exists g'. split; [exact Hrun|]. split.
    + destruct (Hcells c ch9 Hc) as (_ & _ & Hg' & _). rewrite Hg'.
      destruct (decide (c ∈ flashes h)); [reflexivity | tauto].
    + intros q v Hq Hvq.
      assert (Hqc : q <> c) by (apply elem_of_neighbours in Hq; tauto).
      destruct (Hcells q v Hvq) as (_ & _ & Hg' & _). rewrite Hg'.
      destruct (decide (q ∈ flashes h)) as [Hin|_]; [destruct (Hother q Hqc Hin)|].
      rewrite Hfl. simpl. pose proof (occ_elem _ _ Hq).
      pose proof (occ_NoDup q _ (neighbours_NoDup (Z.of_nat (length g))
                                    (Z.of_nat (width g)) c)).
      f_equal. lia.
  - exists g'. split; [exact Hrun|]. intros q v Hvq Hqc Hq.
    destruct (Hcells q v Hvq) as (_ & _ & Hg' & _). rewrite Hg'.
    destruct (decide (q ∈ flashes h)) as [Hin|_]; [destruct (Hother q Hqc Hin)|].
    rewrite Hfl. simpl. rewrite (occ_not_elem _ _ Hq). f_equal. lia.
Qed.

Lemma isolated_nine_step_witness :
  lone_flash 2 (grid_of_strings ["000"; "090"; "000"]) (1, 1) /\
  exists g', step (grid_of_strings ["000"; "090"; "000"]) = Some (Returns (g', 1)) /\
    forall q v, cell (grid_of_strings ["000"; "090"; "000"]) q = Some v ->
      q <> (1, 1) -> q ∉ neighbours 3 3 (1, 1) -> cell g' q = Some (v + 1).
Proof.
  apply (isolated_nine_step (grid_of_strings ["000"; "090"; "000"]) (1, 1)).
  reflexivity.
Defined.

(** C3, as stated, fails on the 3x3 grid with a ['9'] in the middle of
    ['0']s: the corner, a neighbour of the centre, goes from ['0'] to ['2'],
    an increase of 2 and not of 1. *)
Lemma isolated_nine_neighbours_not_plus_1 :
  isolated_nine (grid_of_strings ["000"; "090"; "000"]) (1, 1) = true /\
  step (grid_of_strings ["000"; "090"; "000"]) =
    Some (Returns (grid_of_strings ["222"; "202"; "222"], 1)) /\
  ~ lone_flash 1 (grid_of_strings ["000"; "090"; "000"]) (1, 1).
Proof.
  split; [reflexivity|]. split; [reflexivity|].
  intros (g' & Hstep & _ & Hnb).
  assert (Hg' : g' = grid_of_strings ["222"; "202"; "222"]).
  { vm_compute in Hstep. injection Hstep as <-. reflexivity. }
  specialize (Hnb (0, 0) ch0). rewrite Hg' in Hnb.
  assert (H0 : (0, 0) ∈ neighbours 3 3 (1, 1)) by (vm_compute; left).
  specialize (Hnb H0 eq_refl). vm_compute in Hnb. discriminate.
Qed.

(** C4: on the 3x3 grid in which every cell is ['9'], one call of [step]
    returns exactly 9 and leaves every cell at ['0']. *)
Theorem step_all_nines_3x3 :
  step (grid_of_strings ["999"; "999"; "999"]) =
  Some (Returns (grid_of_strings ["000"; "000"; "000"], 9)).
Proof. vm_compute. reflexivity. Qed.

(** C5: on every non-empty rectangular grid in which every cell is ['0'],
    one call of [step] returns 0 and leaves every cell at ['1']. *)
Theorem step_all_zero (g : grid) :
  g <> [] -> rectangular g = true -> all_zero g = true ->
  step g = Some (Returns (map (map (fun _ => ch0 + 1)) g, 0)).
Proof.
  intros Hne Hrect Hz.
  assert (Hzero : forall p v, cell g p = Some v -> v = ch0).
  { unfold all_zero in Hz. rewrite forallb_forall in Hz.
    intros p v (_ & _ & row & Hr & Hc)%cell_Some.
    assert (Hrow : forallb (Z.eqb ch0) row = true).
    { apply Hz, list_elem_of_In, list_elem_of_lookup. eauto. }
    rewrite forallb_forall in Hrow. symmetry. apply Z.eqb_eq.
    apply Hrow, list_elem_of_In, list_elem_of_lookup. eauto. }
  assert (Hv : valid_grid g = true).
  { apply valid_grid_parts. split; [exact Hne|]. split; [exact Hrect|].
    apply cells_digits. intros p v ->%Hzero. unfold ch0, ch9. lia. }
  destruct (step_log_valid (9 * cell_count g) g Hv (le_n _))
    as (g' & n & h & Hrun & Hran & Hcells).
  pose proof (caused_all_zero g _ _ _ Hzero (ran_fl_caused _ _ _ _ Hran)) as Hfl.
  rewrite (step_of_log _ _ _ _ Hrun), (ran_count _ _ _ _ Hran), Hfl.
  simpl. do 3 f_equal. apply grid_ext.
  - rewrite (ran_shape _ _ _ _ Hran), map_map. apply map_ext.
    intros row. now rewrite length_map.
  - intros p. unfold cell at 2.
    change (map (map (fun _ : Z => ch0 + 1)) g)
      with (map (fun _ : Z => ch0 + 1) <$> g).
    rewrite list_lookup_fmap.
    destruct (cell g p) as [v0|] eqn:Hv0.
    + destruct (Hcells p v0 Hv0) as (_ & _ & Hg' & _). rewrite Hg', Hfl.
      destruct (decide (p ∈ [])) as [Hin|_]; [inversion Hin|]. simpl.
      rewrite (Hzero p v0 Hv0).
      apply cell_Some in Hv0 as (H1 & H2 & row & Hr & Hc).
      destruct (Z.ltb_spec p.1 0), (Z.ltb_spec p.2 0); try lia. simpl.
      rewrite Hr. simpl.
      change (map (fun _ : Z => ch0 + 1) row)
        with ((fun _ : Z => ch0 + 1) <$> row).
      rewrite list_lookup_fmap, Hc. reflexivity.
    + rewrite (cell_shape_None g g' p) by
        (symmetry; exact (ran_shape _ _ _ _ Hran)) || exact Hv0.
      unfold cell in Hv0.
      destruct ((p.1 <? 0) || (p.2 <? 0)); [reflexivity|].
      destruct (g !! Z.to_nat p.1) as [row|]; [|reflexivity]. simpl.
      change (map (fun _ : Z => ch0 + 1) row)
        with ((fun _ : Z => ch0 + 1) <$> row).
      rewrite list_lookup_fmap, Hv0. reflexivity.
Qed.

Lemma step_all_zero_witness :
  step (grid_of_strings ["000"; "000"]) =
  Some (Returns (map (map (fun _ => ch0 + 1)) (grid_of_strings ["000"; "000"]), 0)).
Proof.
  apply (step_all_zero (grid_of_strings ["000"; "000"]));
    [discriminate | reflexivity | reflexivity].
Defined.

(** C6, as stated (an error is raised exactly for empty and for ragged
    grids), fails: the ragged grid ["0"; "00"] is processed without any
    error, its second row keeping its last cell untouched; and on the ragged
    grid ["00"; "0"] no error is raised either, the cell [levels[1][1]]
    behind the end of the second row being accessed unchecked. *)
Lemma ragged_grid_not_rejected :
  rectangular (grid_of_strings ["0"; "00"]) = false /\
  step (grid_of_strings ["0"; "00"]) =
    Some (Returns (grid_of_strings ["1"; "10"], 0)) /\
  ~ (step (grid_of_strings ["0"; "00"]) = Some Throws_out_of_range <->
     grid_of_strings ["0"; "00"] = [] \/
     rectangular (grid_of_strings ["0"; "00"]) = false) /\
  rectangular (grid_of_strings ["00"; "0"]) = false /\
  step (grid_of_strings ["00"; "0"]) = Some Undefined.
Proof.
  split; [reflexivity|]. split; [reflexivity|]. split; [|split; reflexivity].
  intros [_ H]. specialize (H (or_intror eq_refl)). vm_compute in H. discriminate.
Qed.

(** C6, as amended: [step] raises an error, the [std::out_of_range] of
    [levels.at(0)], exactly when the grid is empty. It makes no check of the
    row lengths: a non-empty grid returns normally exactly when no row is
    shorter than row 0 (rows may be longer; their cells beyond the length of
    row 0 are left alone), and a grid with a row shorter than row 0 is
    accessed outside that row, which is undefined behaviour and not an
    error surfaced to the caller. *)
Theorem step_failure_modes (g : grid) :
  (step g = Some Throws_out_of_range <-> g = []) /\
  (step g = Some Undefined <-> g <> [] /\ covered g = false) /\
  ((exists g' n, step g = Some (Returns (g', n))) <->
   g <> [] /\ covered g = true) /\
  (forall g' n p, step g = Some (Returns (g', n)) ->
     ~ inb (Z.of_nat (length g)) (Z.of_nat (width g)) p ->
     cell g' p = cell g p).
Proof.
  destruct g as [|row0 rest] eqn:Hg.
  { split; [split; reflexivity|]. split; [|split].
    - split; [discriminate | intros [H _]; congruence].
    - split; [intros (g' & n & H); discriminate | intros [H _]; congruence].
    - intros g' n p H. discriminate. }
  rewrite <- Hg. assert (Hne : g <> []) by (rewrite Hg; discriminate).
  rewrite step_erase. unfold step_log.
  destruct (step_log_fuel_spec (9 * cell_count g) g Hne (le_n _)) as
    [(Hcov & g' & n & h & -> & Hran) | (Hcov & ->)]; simpl; rewrite Hcov.
  - split; [split; [discriminate | congruence]|]. split; [|split].
    + split; [discriminate | intros [_ H]; discriminate].
    + split; [tauto | intros _; eauto].
    + intros g2 n2 p [= <- <-]. apply (ran_frame _ _ _ _ Hran).
  - split; [split; [discriminate | congruence]|]. split; [|split].
    + tauto.
    + split; [intros (g' & n & H); discriminate | intros [_ H]; discriminate].
    + intros g2 n2 p H. discriminate.
Qed.

(** The body of the loop leaves no choice. *)
Lemma loop_turn_det (R C : Z) (c c1 c2 : config) :
  loop_turn R C c c1 -> loop_turn R C c c2 -> c1 = c2.
Proof.
  intros H1 H2. destruct H1 as [p Q g n Hp | p Q g n v Hp Hv];
    inversion H2 as [p' Q' g' n' Hp' | p' Q' g' n' v' Hp' Hv']; subst.
  - reflexivity.
  - congruence.
  - congruence.
  - assert (v' = v) by congruence. subst. reflexivity.
Qed.

(** Any two executions of the loop from one configuration end alike. *)
Lemma loop_runs_det (R C : Z) (c : config) (r1 r2 : grid * Z) :
  loop_runs R C c r1 -> loop_runs R C c r2 -> r1 = r2.
Proof.
  intros H1. revert r2. induction H1 as [g n | c c' r Hturn Hruns IH]; intros r2 H2.
  - inversion H2 as [| c0 c1 r0 Hturn]; subst; [reflexivity|]. inversion Hturn.
  - inversion H2 as [g n Heq | c0 c1 r0 Hturn' Hruns']; subst.
    + inversion Hturn.
    + apply IH. now rewrite (loop_turn_det _ _ _ _ _ Hturn Hturn').
Qed.

(** What the loop function computes is an execution of the relation. *)
Lemma drain_loop_runs (R C : Z) (fuel : nat) :
  forall (Q : list coord) (g : grid) (n : Z) (r : grid * Z),
  drain fuel R C Q g n = Some (Returns r) -> loop_runs R C (Config Q g n) r.
Proof.
  induction fuel as [|fuel IH]; intros Q g n r.
  - destruct Q; [|discriminate]. intros [= <-]. constructor.
  - destruct Q as [|p Q]; [intros [= <-]; constructor|]. simpl.
    destruct (cell g p) as [v|] eqn:Hv; [|discriminate].
    destruct (Z.eqb_spec v ch9) as [->|Hne]; intros Hrun%IH.
    + eapply runs_turn; [|exact Hrun]. now constructor.
    + eapply runs_turn; [|exact Hrun]. now constructor.
Qed.

Lemma step_runs_of_step (fuel : nat) (g : grid) (r : grid * Z) :
  step_fuel fuel g = Some (Returns r) -> step_runs g r.
Proof.
  unfold step_fuel. destruct g as [|row0 rest] eqn:Hg; [discriminate|].
  cbv zeta.
  destruct (drain fuel _ _ _ _ _) as [[[g1 n1]| |]|] eqn:Hrun; try discriminate.
  destruct (sweep _ g1) as [g2| |] eqn:Hsw; try discriminate.
  intros [= <-]. apply drain_loop_runs in Hrun.
  apply (step_runs_intro (row0 :: rest) g1 g2 n1); [discriminate | exact Hrun | exact Hsw].
Qed.

(** Any two calls of [step] that return, on equal grids, return alike. *)
Lemma step_runs_det (g : grid) (r1 r2 : grid * Z) :
  step_runs g r1 -> step_runs g r2 -> r1 = r2.
Proof.
  intros H1 H2.
  inversion H1 as [l1 ga1 gb1 n1 _ Hl1 Hs1]; subst.
  inversion H2 as [l2 ga2 gb2 n2 _ Hl2 Hs2]; subst.
  pose proof (loop_runs_det _ _ _ _ _ Hl1 Hl2) as Heq.
  injection Heq as <- <-. rewrite Hs1 in Hs2. now injection Hs2 as <-.
Qed.

(** C7: [step] is deterministic: with two equal copies of a valid grid in
    the caller's memory, calling [step] on one and then on the other
    returns, and however the two calls execute, they return equal flash
    counts and leave equal grids in the two copies, the ones [step]
    computes. The calls are executions of the transition relation of the
    loop, the second starting in the memory the first has left. *)
Theorem step_deterministic (mem : list grid) (a b : nat) (g : grid) :
  valid_grid g = true -> a <> b ->
  mem !! a = Some g -> mem !! b = Some g ->
  (exists mem2 n1 n2, two_calls a b mem mem2 n1 n2) /\
  forall mem2 n1 n2, two_calls a b mem mem2 n1 n2 ->
    n1 = n2 /\ mem2 !! a = mem2 !! b /\
    exists g', mem2 !! a = Some g' /\ step g = Some (Returns (g', n1)).
Proof.
  intros Hv Hab Ha Hb.
  destruct (step_log_valid (9 * cell_count g) g Hv (le_n _))
    as (g' & n & h & Hrun%step_of_log & _).
  pose proof (step_runs_of_step _ _ _ Hrun) as Hruns.
  assert (Hb1 : <[a := g']> mem !! b = Some g).
  { now rewrite list_lookup_insert_ne. }
  split.
  - exists (<[b := g']> (<[a := g']> mem)), n, n, (<[a := g']> mem).
    split; [now apply (call_runs_intro a mem g g' n)|].
    now apply (call_runs_intro b _ g g' n).
  - intros mem2 n1 n2 (mem1 & H1 & H2).
    inversion H1 as [m1 ga ga' na Hla Hra]; subst.
    assert (ga = g) by congruence. subst ga.
    pose proof (step_runs_det _ _ _ Hra Hruns) as Heq1. injection Heq1 as -> ->.
    inversion H2 as [m2 gb gb' nb Hlb Hrb]; subst.
    assert (gb = g) by congruence. subst gb.
    pose proof (step_runs_det _ _ _ Hrb Hruns) as Heq2. injection Heq2 as -> ->.
    assert (Hla' : <[b := g']> (<[a := g']> mem) !! a = Some g').
    { rewrite list_lookup_insert_ne by congruence.
      apply list_lookup_insert_eq. now apply lookup_lt_Some in Ha. }
    assert (Hlb' : <[b := g']> (<[a := g']> mem) !! b = Some g').
    { apply list_lookup_insert_eq. rewrite length_insert.
      now apply lookup_lt_Some in Hb. }
    split; [reflexivity|]. split; [congruence|]. exists g'. auto.
Qed.

Lemma step_deterministic_witness :
  (exists mem2 n1 n2,
     two_calls 0 1 [grid_of_strings ["18"; "91"]; grid_of_strings ["18"; "91"]]
               mem2 n1 n2) /\
  forall mem2 n1 n2,
    two_calls 0 1 [grid_of_strings ["18"; "91"]; grid_of_strings ["18"; "91"]]
              mem2 n1 n2 ->
    n1 = n2 /\ mem2 !! 0%nat = mem2 !! 1%nat /\
    exists g', mem2 !! 0%nat = Some g' /\
               step (grid_of_strings ["18"; "91"]) = Some (Returns (g', n1)).
Proof.
  apply (step_deterministic
           [grid_of_strings ["18"; "91"]; grid_of_strings ["18"; "91"]]
           0 1 (grid_of_strings ["18"; "91"]));
    [reflexivity | discriminate | reflexivity | reflexivity].
Defined.

(** The copies matter: called twice on one and the same vector, [step]
    finds at the second call what the first has left, and returns 2 flashes
    and then none. *)
Example two_calls_on_one_vector (mem2 : list grid) (n1 n2 : Z) :
  two_calls 0 0 [grid_of_strings ["18"; "91"]] mem2 n1 n2 ->
  n1 = 2 /\ n2 = 0 /\ mem2 = [grid_of_strings ["51"; "15"]].
Proof.
  intros (mem1 & H1 & H2).
  inversion H1 as [m1 ga ga' na Hla Hra]; subst.
  injection Hla as <-.
  pose proof (step_runs_det _ _ _ Hra
                (step_runs_of_step 36 (grid_of_strings ["18"; "91"])
                   (grid_of_strings ["40"; "04"], 2) eq_refl)) as Heq.
  injection Heq as -> ->.
  inversion H2 as [m2 gb gb' nb Hlb Hrb]; subst.
  injection Hlb as <-.
  pose proof (step_runs_det _ _ _ Hrb
                (step_runs_of_step 36 (grid_of_strings ["40"; "04"])
                   (grid_of_strings ["51"; "15"], 0) eq_refl)) as Heq.
  injection Heq as -> ->. auto.
Qed.

(** C8: on every valid grid, every coordinate ever emplaced on the queue
    lies in the rectangle [0 <= r < R], [0 <= c < C] and names a cell of the
    grid; no access of the propagation loop or of the sweep falls outside,
    so the call returns and the undefined outcome does not arise. *)
Theorem enqueued_in_bounds (g : grid) :
  valid_grid g = true ->
  exists g' n h,
    step_log g = Some (Returns (g', n, h)) /\
    step g = Some (Returns (g', n)) /\
    step g <> Some Undefined /\
    Forall (fun p => inb (Z.of_nat (length g)) (Z.of_nat (width g)) p /\
                     is_Some (cell g p)) (enqueued h).
Proof.
  intros Hv.
  destruct (step_log_valid (9 * cell_count g) g Hv (le_n _))
    as (g' & n & h & Hrun & Hran & _).
  pose proof Hv as (_ & Hrect & _)%valid_grid_parts.
  exists g', n, h. split; [exact Hrun|].
  rewrite (step_of_log _ _ _ _ Hrun). split; [reflexivity|].
  split; [discriminate|].
  eapply Forall_impl; [exact (ran_enq_inb _ _ _ _ Hran)|].
  intros p Hp. split; [exact Hp|].
  apply (proj1 (covered_cells g) (rectangular_covered g Hrect) p Hp).
Qed.

Lemma enqueued_in_bounds_witness :
  exists g' n h,
    step_log (grid_of_strings ["18"; "91"]) = Some (Returns (g', n, h)) /\
    step (grid_of_strings ["18"; "91"]) = Some (Returns (g', n)) /\
    step (grid_of_strings ["18"; "91"]) <> Some Undefined /\
    Forall (fun p => inb 2 2 p /\
                     is_Some (cell (grid_of_strings ["18"; "91"]) p))
           (enqueued h).
Proof. apply (enqueued_in_bounds (grid_of_strings ["18"; "91"])). reflexivity. Defined.

(** C9: on every valid grid [step] terminates. The loop runs once per
    emplaced coordinate; these are the [R * C] initial ones and at most 8
    per flash, and no cell flashes twice, so there are at most [9 * R * C]
    iterations; any fuel of at least the number of emplaced coordinates
    lets the loop, the sweep and the return complete with the same result. *)
Theorem step_terminates (g : grid) :
  valid_grid g = true ->
  exists g' n h,
    step_log g = Some (Returns (g', n, h)) /\
    0 <= n /\
    (length (enqueued h) <= cell_count g + 8 * Z.to_nat n)%nat /\
    (length (enqueued h) <= 9 * cell_count g)%nat /\
    NoDup (flashes h) /\
    forall fuel, (length (enqueued h) <= fuel)%nat ->
      step_log_fuel fuel g = Some (Returns (g', n, h)) /\
      step_fuel fuel g = Some (Returns (g', n)).
Proof.
  intros Hv.
  destruct (step_log_valid (9 * cell_count g) g Hv (le_n _))
    as (g' & n & h & Hrun & Hran & _).
  pose proof (num_flashes_bound _ _ _ _ Hran) as Hn.
  pose proof (emplaced_le (Z.of_nat (length g)) (Z.of_nat (width g)) (flashes h)) as He.
  pose proof (ran_enq_len _ _ _ _ Hran) as Hlen.
  pose proof (ran_count _ _ _ _ Hran) as Hc.
  exists g', n, h. split; [exact Hrun|]. split; [lia|].
  split; [lia|]. split; [lia|].
  split; [exact (ran_fl_nodup _ _ _ _ Hran)|].
  intros fuel Hfuel.
  pose proof (step_log_fuel_more _ fuel g _ Hfuel
                (step_log_fuel_exact _ _ _ _ _ Hrun)) as Hrun'.
  split; [exact Hrun' | exact (step_fuel_of_log _ _ _ _ _ Hrun')].
Qed.

Lemma step_terminates_witness :
  exists g' n h,
    step_log (grid_of_strings ["18"; "91"]) = Some (Returns (g', n, h)) /\
    0 <= n /\
    (length (enqueued h) <= cell_count (grid_of_strings ["18"; "91"])
                            + 8 * Z.to_nat n)%nat /\
    (length (enqueued h) <= 9 * cell_count (grid_of_strings ["18"; "91"]))%nat /\
    NoDup (flashes h) /\
    forall fuel, (length (enqueued h) <= fuel)%nat ->
      step_log_fuel fuel (grid_of_strings ["18"; "91"]) = Some (Returns (g', n, h)) /\
      step_fuel fuel (grid_of_strings ["18"; "91"]) = Some (Returns (g', n)).
Proof. apply (step_terminates (grid_of_strings ["18"; "91"])). reflexivity. Defined.

Lemma step_fuel_shape (fuel : nat) (g g' : grid) (n : Z) :
  step_fuel fuel g = Some (Returns (g', n)) -> map length g' = map length g.
Proof.
  unfold step_fuel. destruct g as [|row0 rest]; [discriminate|]. cbv zeta.
  destruct (drain fuel _ _ _ _ _) as [[[g1 n1]| |]|] eqn:Hrun; try discriminate.
  destruct (sweep _ g1) as [g2| |] eqn:Hsw; try discriminate.
  intros [= <- <-]. rewrite (sweep_shape _ _ _ Hsw).
  exact (drain_shape _ _ _ _ _ _ _ _ Hrun).
Qed.

(** C10: [step] preserves the shape of the grid: whenever a call returns,
    the grid has as many rows as before and each row has the length it had
    before; only cell values have changed. *)
Theorem step_preserves_shape (g g' : grid) (n : Z) :
  step g = Some (Returns (g', n)) ->
  length g' = length g /\
  map length g' = map length g /\
  forall i row, g !! i = Some row ->
    exists row', g' !! i = Some row' /\ length row' = length row.
Proof.
  intros Hs%step_fuel_shape. split; [exact (shape_length _ _ Hs)|].
  split; [exact Hs|]. intros i row Hrow.
  pose proof (f_equal (fun l => l !! i) Hs) as Hi. simpl in Hi.
  change (map length) with (fmap (M:=list) (@length Z)) in Hi.
  rewrite !list_lookup_fmap, Hrow in Hi.
  destruct (g' !! i) as [row'|]; [|discriminate].
  exists row'. split; [reflexivity|]. now injection Hi.
Qed.

Lemma step_preserves_shape_witness :
  length (grid_of_strings ["40"; "04"]) = length (grid_of_strings ["18"; "91"]) /\
  map length (grid_of_strings ["40"; "04"]) =
    map length (grid_of_strings ["18"; "91"]) /\
  forall i row, grid_of_strings ["18"; "91"] !! i = Some row ->
    exists row', grid_of_strings ["40"; "04"] !! i = Some row' /\
                 length row' = length row.
Proof.
  apply (step_preserves_shape (grid_of_strings ["18"; "91"])
                              (grid_of_strings ["40"; "04"]) 2).
  reflexivity.
Defined.

(** ** The rule a step follows

    The remaining results describe the grid a step leaves without reference
    to the history of the loop: which cells flashed can be read off the
    result, where they are the cells at ['0']. *)

Lemma neighbours_sym (R C : Z) (p q : coord) :
  inb R C p -> q ∈ neighbours R C p -> p ∈ neighbours R C q.
Proof.
  intros Hp (Hq & Hne & Hr & Hc)%elem_of_neighbours.
  apply elem_of_neighbours. repeat split; try lia; try apply Hp. congruence.
Qed.

Lemma filter_length_le {A : Type} (P Q : A -> Prop)
    `{!forall x, Decision (P x)} `{!forall x, Decision (Q x)} (l : list A) :
  (forall x, x ∈ l -> P x -> Q x) ->
  (length (filter P l) <= length (filter Q l))%nat.
Proof.
  induction l as [|x l IH]; intros Himp; [reflexivity|].
  rewrite !filter_cons.
  assert (IH' : (length (filter P l) <= length (filter Q l))%nat).
  { apply IH. intros y Hy. apply Himp. now right. }
  destruct (decide (P x)) as [HP|HP].
  - destruct (decide (Q x)) as [HQ|HQ]; [simpl; lia|].
    destruct HQ. apply Himp; [left | exact HP].
  - destruct (decide (Q x)); simpl; lia.
Qed.

(** The flashes that emplaced [p] are its flashing neighbours. *)
Lemma hits_neighbours (R C : Z) (fl : list coord) (p : coord) :
  NoDup fl -> Forall (inb R C) fl -> inb R C p ->
  hits R C fl p =
  Z.of_nat (length (filter (fun q => q ∈ fl) (neighbours R C p))).
Proof.
  intros Hnd Hin Hp. rewrite hits_filter. f_equal. apply Permutation_length.
  apply NoDup_Permutation.
  - now apply NoDup_filter.
  - apply NoDup_filter, neighbours_NoDup.
  - intros f. rewrite !list_elem_of_filter. split.
    + intros [Hpf Hf]. split; [exact Hf|].
      apply (neighbours_sym R C f p); [|exact Hpf].
      exact (proj1 (Forall_forall _ _) Hin f Hf).
    + intros [Hf Hfp]. split; [|exact Hf]. now apply (neighbours_sym R C p f).
Qed.

(** Everything the later results need to know about a step on a valid
    grid, in one place. *)
Lemma step_valid_summary (g : grid) :
  valid_grid g = true ->
  exists g' n h,
    step g = Some (Returns (g', n)) /\ Ran g g' n h /\
    (forall p, inb (Z.of_nat (length g)) (Z.of_nat (width g)) p <->
               is_Some (cell g p)) /\
    (forall p v, cell g p = Some v -> ch0 <= v <= ch9) /\
    (forall p, p ∈ flashes h <-> cell g' p = Some ch0) /\
    (forall p v0, cell g p = Some v0 ->
       let k := count_around (Z.of_nat (length g)) (Z.of_nat (width g))
                             (fun q => holds g' q ch0) p in
       hits (Z.of_nat (length g)) (Z.of_nat (width g)) (flashes h) p = k /\
       0 <= k <= 8 /\
       (p ∈ flashes h <-> ch9 <= v0 + k) /\
       cell g' p = Some (if ch9 <=? v0 + k then ch0 else v0 + 1 + k)).
Proof.
  intros Hv.
  destruct (step_log_valid (9 * cell_count g) g Hv (le_n _))
    as (g' & n & h & Hrun & Hran & Hcells).
  pose proof Hv as (Hne & Hrect & Hdig)%valid_grid_parts.
  assert (Hinb : forall p, inb (Z.of_nat (length g)) (Z.of_nat (width g)) p <->
                           is_Some (cell g p)).
  { intros p. split.
    - apply (proj1 (covered_cells g) (rectangular_covered g Hrect)).
    - intros [v Hp]. exact (rectangular_inb g p v Hrect Hp). }
  assert (Hfl_inb : forall p, p ∈ flashes h ->
                      inb (Z.of_nat (length g)) (Z.of_nat (width g)) p).
  { apply Forall_forall. exact (ran_fl_inb _ _ _ _ Hran). }
  assert (Hzero : forall p, p ∈ flashes h <-> cell g' p = Some ch0).
  { intros p. split.
    - intros Hin. destruct (proj1 (Hinb p) (Hfl_inb p Hin)) as [v0 Hv0].
      destruct (Hcells p v0 Hv0) as (_ & _ & Hg' & _). rewrite Hg'.
      destruct (decide (p ∈ flashes h)); [reflexivity | tauto].
    - intros Hz.
      assert (is_Some (cell g p)) as [v0 Hv0].
      { eapply cell_shape; [exact (ran_shape _ _ _ _ Hran) | eauto]. }
      destruct (Hcells p v0 Hv0) as (Hk & _ & Hg' & _). rewrite Hg' in Hz.
      destruct (decide (p ∈ flashes h)) as [Hin|Hn]; [exact Hin|].
      pose proof (digits_cell g p v0 Hdig Hv0). injection Hz as Hz. lia. }
  exists g', n, h. split; [exact (step_of_log _ _ _ _ Hrun)|].
  split; [exact Hran|]. split; [exact Hinb|].
  split; [intros p v; apply digits_cell, Hdig|]. split; [exact Hzero|].
  intros p v0 Hv0 k.
  destruct (Hcells p v0 Hv0) as (Hk & Hfl & Hg' & Hle).
  assert (Hhk : hits (Z.of_nat (length g)) (Z.of_nat (width g)) (flashes h) p = k).
  { rewrite hits_neighbours;
      [| exact (ran_fl_nodup _ _ _ _ Hran) | exact (ran_fl_inb _ _ _ _ Hran)
       | apply Hinb; eauto].
    unfold k, count_around. f_equal. f_equal. apply list_filter_iff.
    intros q. rewrite holds_true. apply Hzero. }
  rewrite Hhk in Hk, Hfl, Hg', Hle.
  split; [exact Hhk|]. split; [exact Hk|]. split; [exact Hfl|].
  rewrite Hg'. destruct (decide (p ∈ flashes h)) as [Hin|Hn].
  - apply Hfl in Hin. destruct (Z.leb_spec ch9 (v0 + k)); [reflexivity | lia].
  - specialize (Hle Hn). destruct (Z.leb_spec ch9 (v0 + k)); [lia | reflexivity].
Qed.

(** X1: the grid a step leaves obeys the rule of the puzzle, cell by cell:
    with [k] the number of neighbours that ended at ['0'] (those are the
    ones that flashed), a cell that held [v0] ends at ['0'] if [v0 + k]
    reaches ['9'], and at [v0 + 1 + k] otherwise. *)
Theorem step_local_rule (g : grid) :
  valid_grid g = true ->
  exists g' n,
    step g = Some (Returns (g', n)) /\
    forall p v0, cell g p = Some v0 ->
      let k := count_around (Z.of_nat (length g)) (Z.of_nat (width g))
                            (fun q => holds g' q ch0) p in
      cell g' p = Some (if ch9 <=? v0 + k then ch0 else v0 + 1 + k).
Proof.
  intros Hv.
  destruct (step_valid_summary g Hv) as (g' & n & h & Hstep & _ & _ & _ & _ & Hc).
  exists g', n. split; [exact Hstep|]. intros p v0 Hv0 k.
  now destruct (Hc p v0 Hv0) as (_ & _ & _ & Hg').
Qed.

Lemma step_local_rule_witness :
  exists g' n,
    step (grid_of_strings ["18"; "91"]) = Some (Returns (g', n)) /\
    forall p v0, cell (grid_of_strings ["18"; "91"]) p = Some v0 ->
      let k := count_around 2 2 (fun q => holds g' q ch0) p in
      cell g' p = Some (if ch9 <=? v0 + k then ch0 else v0 + 1 + k).
Proof. apply (step_local_rule (grid_of_strings ["18"; "91"])). reflexivity. Defined.

(** Among the flashes of a step, each one is accounted for by the flashes
    before it; so they all lie in any set closed under the rule. *)
Lemma caused_least (g : grid) (R C : Z) (S : coord -> bool) (fl : list coord) :
  (forall p v, cell g p = Some v -> ch0 <= v <= ch9) ->
  (forall p v0, cell g p = Some v0 ->
     ch9 <= v0 + count_around R C S p -> S p = true) ->
  NoDup fl -> Forall (inb R C) fl -> caused g R C fl ->
  forall f, f ∈ fl -> S f = true.
Proof.
  intros Hdig Hclosed. induction fl as [|f fl IH]; intros Hnd Hin Hca x Hx.
  { inversion Hx. }
  apply NoDup_cons in Hnd as [_ Hnd]. apply Forall_cons in Hin as [Hf Hin].
  destruct Hca as [(v0 & j & Hv0 & Hj & Hb) Hca].
  specialize (IH Hnd Hin Hca).
  apply elem_of_cons in Hx as [->|Hx]; [|now apply IH].
  pose proof (hits_le_8 R C fl f Hnd) as H8.
  pose proof (Hdig f v0 Hv0) as Hd.
  rewrite bump_digit in Hb by lia.
  apply (Hclosed f v0 Hv0). unfold count_around.
  rewrite (hits_neighbours R C fl f Hnd Hin Hf) in Hj.
  pose proof (filter_length_le (fun q => q ∈ fl) (fun q => S q = true)
                (neighbours R C f) (fun q _ Hq => IH q Hq)).
  lia.
Qed.

(** X2: the cells that flash in a step form the least set closed under the
    rule "a cell whose value plus its number of neighbours in the set
    reaches ['9'] is in the set": every set [S] closed under that rule
    contains every cell the step leaves at ['0']. With [step_local_rule],
    which says the flashing cells are themselves closed, this fixes the
    result of a step independently of the order of the queue. *)
Theorem flashes_least (g g' : grid) (n : Z) (S : coord -> bool) :
  valid_grid g = true ->
  step g = Some (Returns (g', n)) ->
  (forall p v0, cell g p = Some v0 ->
     ch9 <= v0 + count_around (Z.of_nat (length g)) (Z.of_nat (width g)) S p ->
     S p = true) ->
  forall p, cell g' p = Some ch0 -> S p = true.
Proof.
  intros Hv Hstep Hclosed p Hp.
  destruct (step_valid_summary g Hv)
    as (g2 & n2 & h & Hstep2 & Hran & _ & Hdig & Hzero & _).
  rewrite Hstep in Hstep2. injection Hstep2 as <- <-.
  apply (caused_least g _ _ S (flashes h) Hdig Hclosed
           (ran_fl_nodup _ _ _ _ Hran) (ran_fl_inb _ _ _ _ Hran)
           (ran_fl_caused _ _ _ _ Hran)).
  now apply Hzero.
Qed.

Lemma flashes_least_witness :
  holds (grid_of_strings ["18"; "91"]) (0, 1) ch9 ||
  holds (grid_of_strings ["18"; "91"]) (0, 1) 56 = true.
Proof.
  apply (flashes_least (grid_of_strings ["18"; "91"])
           (grid_of_strings ["40"; "04"]) 2
           (fun p => holds (grid_of_strings ["18"; "91"]) p ch9 ||
                     holds (grid_of_strings ["18"; "91"]) p 56)
           eq_refl eq_refl).
  - intros p v0 Hp.
    assert (Hin : p ∈ all_cells 2 2).
    { apply elem_of_all_cells.
      exact (rectangular_inb (grid_of_strings ["18"; "91"]) p v0 eq_refl Hp). }
    vm_compute in Hin.
    repeat (apply elem_of_cons in Hin as [->|Hin]);
      [| | | | inversion Hin];
      vm_compute in Hp; injection Hp as <-; vm_compute; intros H;
      solve [reflexivity | exfalso; apply H; reflexivity].
  - reflexivity.
Defined.

Lemma cell_fmap (f : Z -> Z) (g : grid) (p : coord) :
  cell (map (map f) g) p = f <$> cell g p.
Proof.
  unfold cell. destruct ((p.1 <? 0) || (p.2 <? 0)); [reflexivity|].
  change (map (map f) g) with (map f <$> g). rewrite list_lookup_fmap.
  destruct (g !! Z.to_nat p.1) as [row|]; [|reflexivity]. simpl.
  change (map f row) with (f <$> row). apply list_lookup_fmap.
Qed.

Lemma fmap_shape (f : Z -> Z) (g : grid) :
  map length (map (map f) g) = map length g.
Proof. rewrite map_map. apply map_ext. intros row. apply length_map. Qed.

Lemma has_nine_cell (g : grid) :
  has_nine g = true <-> exists p, cell g p = Some ch9.
Proof.
  unfold has_nine. rewrite existsb_exists. split.
  - intros (row & Hrow & (v & Hv & Heq)%existsb_exists).
    apply Z.eqb_eq in Heq as <-.
    apply list_elem_of_In, list_elem_of_lookup in Hrow as [i Hi].
    apply list_elem_of_In, list_elem_of_lookup in Hv as [j Hj].
    exists (Z.of_nat i, Z.of_nat j). apply cell_Some. simpl.
    rewrite !Nat2Z.id. split; [lia|]. split; [lia|]. eauto.
  - intros (p & (_ & _ & row & Hr & Hc)%cell_Some).
    exists row. split; [apply list_elem_of_In, list_elem_of_lookup; eauto|].
    apply existsb_exists. exists ch9.
    split; [apply list_elem_of_In, list_elem_of_lookup; eauto | reflexivity].
Qed.

(** Without a ['9'] to start from, nothing can flash. *)
Lemma caused_no_nine (g : grid) (R C : Z) (fl : list coord) :
  (forall p, cell g p <> Some ch9) -> caused g R C fl -> fl = [].
Proof.
  intros Hno. induction fl as [|f fl IH]; [reflexivity|].
  intros [(v0 & j & Hv0 & Hj & Hb) Hca]. rewrite (IH Hca) in Hj. simpl in Hj.
  assert (j = 0) as -> by lia. unfold bump in Hb. simpl in Hb.
  destruct (Hno f). congruence.
Qed.

(** X3: a step on a valid grid returns 0 exactly when no cell holds ['9'],
    and then it has just added one to every cell. *)
Theorem step_without_nine (g : grid) :
  valid_grid g = true ->
  exists g' n,
    step g = Some (Returns (g', n)) /\
    (n = 0 <-> has_nine g = false) /\
    (has_nine g = false -> g' = map (map (fun v => v + 1)) g).
Proof.
  intros Hv.
  destruct (step_valid_summary g Hv)
    as (g' & n & h & Hstep & Hran & Hinb & Hdig & Hzero & Hc).
  exists g', n. split; [exact Hstep|].
  assert (Hnone : has_nine g = false -> flashes h = []).
  { intros Hno.
    apply (caused_no_nine g (Z.of_nat (length g)) (Z.of_nat (width g)));
      [|exact (ran_fl_caused _ _ _ _ Hran)].
    intros p Hp. assert (has_nine g = true) by (apply has_nine_cell; eauto).
    congruence. }
  split; [split|].
  - intros ->. destruct (has_nine g) eqn:Hn; [|reflexivity].
    apply has_nine_cell in Hn as [p Hp].
    destruct (Hc p ch9 Hp) as (_ & Hk & Hfl & _).
    assert (Hin : p ∈ flashes h) by (apply Hfl; lia).
    pose proof (ran_count _ _ _ _ Hran) as Hcount.
    destruct (flashes h); [inversion Hin | discriminate].
  - intros Hno. rewrite (ran_count _ _ _ _ Hran), (Hnone Hno). reflexivity.
  - intros Hno. apply grid_ext.
    { rewrite (ran_shape _ _ _ _ Hran). symmetry. apply fmap_shape. }
    intros p. rewrite cell_fmap.
    destruct (cell g p) as [v0|] eqn:Hv0.
    + destruct (Hc p v0 Hv0) as (Hhits & _ & Hfl & Hg').
      rewrite (Hnone Hno) in Hhits. simpl in Hhits. rewrite <- Hhits in Hg', Hfl.
      rewrite Hg'. destruct (Z.leb_spec ch9 (v0 + 0)) as [Hge|_].
      * apply Hfl in Hge. rewrite (Hnone Hno) in Hge. inversion Hge.
      * simpl. f_equal. lia.
    + apply (cell_shape_None g g' p); [|exact Hv0].
      symmetry. exact (ran_shape _ _ _ _ Hran).
Qed.

Lemma step_without_nine_witness :
  exists g' n,
    step (grid_of_strings ["128"; "340"]) = Some (Returns (g', n)) /\
    (n = 0 <-> has_nine (grid_of_strings ["128"; "340"]) = false) /\
    (has_nine (grid_of_strings ["128"; "340"]) = false ->
     g' = map (map (fun v => v + 1)) (grid_of_strings ["128"; "340"])).
Proof. apply (step_without_nine (grid_of_strings ["128"; "340"])). reflexivity. Defined.

(** X4: on a non-empty rectangular grid of any size in which every cell
    holds ['9'], every cell flashes: the step returns the number of cells
    and leaves ['0'] everywhere. *)
Theorem step_all_nine (g : grid) :
  g <> [] -> rectangular g = true -> all_nine g = true ->
  step g = Some (Returns (map (map (fun _ => ch0)) g, Z.of_nat (cell_count g))).
Proof.
  intros Hne Hrect Hall.
  assert (Hnine : forall p v, cell g p = Some v -> v = ch9).
  { unfold all_nine in Hall. rewrite forallb_forall in Hall.
    intros p v (_ & _ & row & Hr & Hc)%cell_Some.
    assert (Hrow : forallb (Z.eqb ch9) row = true).
    { apply Hall, list_elem_of_In, list_elem_of_lookup. eauto. }
    rewrite forallb_forall in Hrow. symmetry. apply Z.eqb_eq.
    apply Hrow, list_elem_of_In, list_elem_of_lookup. eauto. }
  assert (Hv : valid_grid g = true).
  { apply valid_grid_parts. split; [exact Hne|]. split; [exact Hrect|].
    apply cells_digits. intros p v ->%Hnine. unfold ch0, ch9. lia. }
  destruct (step_valid_summary g Hv)
    as (g' & n & h & Hstep & Hran & Hinb & Hdig & Hzero & Hc).
  assert (Hfl : forall p, is_Some (cell g p) -> p ∈ flashes h).
  { intros p [v Hp]. pose proof (Hnine p v Hp) as ->.
    destruct (Hc p ch9 Hp) as (_ & Hk & Hfl & _). apply Hfl. lia. }
  rewrite Hstep. do 3 f_equal.
  - apply grid_ext.
    { rewrite (ran_shape _ _ _ _ Hran). symmetry. apply fmap_shape. }
    intros p. rewrite cell_fmap. destruct (cell g p) as [v0|] eqn:Hv0.
    + apply Hzero, Hfl. eauto.
    + apply (cell_shape_None g g' p); [|exact Hv0].
      symmetry. exact (ran_shape _ _ _ _ Hran).
  - rewrite (ran_count _ _ _ _ Hran), <- all_cells_count. f_equal.
    apply Permutation_length, NoDup_Permutation.
    + exact (ran_fl_nodup _ _ _ _ Hran).
    + apply all_cells_NoDup.
    + intros p. rewrite elem_of_all_cells, Hinb. split; [|apply Hfl].
      intros Hin. apply Hinb.
      exact (proj1 (Forall_forall _ _) (ran_fl_inb _ _ _ _ Hran) p Hin).
Qed.

Lemma step_all_nine_witness :
  step (grid_of_strings ["9999"; "9999"]) =
  Some (Returns (map (map (fun _ => ch0)) (grid_of_strings ["9999"; "9999"]),
                 Z.of_nat (cell_count (grid_of_strings ["9999"; "9999"])))).
Proof.
  apply (step_all_nine (grid_of_strings ["9999"; "9999"]));
    [discriminate | reflexivity | reflexivity].
Defined.

(** X5: every cell that holds ['9'] when a step starts flashes and ends at
    ['0']; so the returned count is at least the number of such cells, and
    it is at most the number of cells. *)
Theorem nines_flash (g : grid) :
  valid_grid g = true ->
  exists g' n,
    step g = Some (Returns (g', n)) /\
    (forall p, cell g p = Some ch9 -> cell g' p = Some ch0) /\
    Z.of_nat (length (filter (fun p => cell g p = Some ch9)
                        (all_cells (Z.of_nat (length g))
                                   (Z.of_nat (width g))))) <= n /\
    n <= Z.of_nat (cell_count g).
Proof.
  intros Hv.
  destruct (step_valid_summary g Hv)
    as (g' & n & h & Hstep & Hran & Hinb & Hdig & Hzero & Hc).
  assert (Hfl : forall p, cell g p = Some ch9 -> p ∈ flashes h).
  { intros p Hp. destruct (Hc p ch9 Hp) as (_ & Hk & Hfl & _). apply Hfl. lia. }
  exists g', n. split; [exact Hstep|]. split; [|split].
  - intros p Hp. apply Hzero, Hfl, Hp.
  - rewrite (ran_count _ _ _ _ Hran). apply inj_le, submseteq_length.
    apply NoDup_submseteq; [apply NoDup_filter, all_cells_NoDup|].
    intros p [Hp _]%list_elem_of_filter. now apply Hfl.
  - apply (num_flashes_bound _ _ _ _ Hran).
Qed.

Lemma nines_flash_witness :
  exists g' n,
    step (grid_of_strings ["18"; "91"]) = Some (Returns (g', n)) /\
    (forall p, cell (grid_of_strings ["18"; "91"]) p = Some ch9 ->
               cell g' p = Some ch0) /\
    Z.of_nat (length (filter
                (fun p => cell (grid_of_strings ["18"; "91"]) p = Some ch9)
                (all_cells 2 2))) <= n /\
    n <= Z.of_nat (cell_count (grid_of_strings ["18"; "91"])).
Proof. apply (nines_flash (grid_of_strings ["18"; "91"])). reflexivity. Defined.

(** X6: [step] does not check that cells are digits. On any grid it
    accepts, a cell that holds a character above ['9'] (up to code 118, so
    that nine increments cannot wrap around) never flashes and is set to
    ['0'] by the final sweep. *)
Theorem high_cell_is_reset (g : grid) (p : coord) (v0 : Z) :
  g <> [] -> covered g = true ->
  inb (Z.of_nat (length g)) (Z.of_nat (width g)) p ->
  cell g p = Some v0 -> ch9 < v0 <= 118 ->
  exists g' n h,
    step_log g = Some (Returns (g', n, h)) /\
    step g = Some (Returns (g', n)) /\
    (p ∉ flashes h) /\ cell g' p = Some ch0.
Proof.
  intros Hne Hcov Hp Hv0 Hhigh.
  destruct (step_log_fuel_spec (9 * cell_count g) g Hne (le_n _)) as
    [(_ & g' & n & h & Hrun & Hran) | (Hcov' & _)]; [|congruence].
  exists g', n, h. split; [exact Hrun|].
  split; [exact (step_of_log _ _ _ _ Hrun)|].
  pose proof (hits_le_8 (Z.of_nat (length g)) (Z.of_nat (width g)) _ p
                (ran_fl_nodup _ _ _ _ Hran)) as H8.
  pose proof (hits_nonneg (Z.of_nat (length g)) (Z.of_nat (width g))
                (flashes h) p) as H0.
  unfold ch9 in Hhigh. split.
  - intros (j & Hj & Hb)%(ran_fl _ _ _ _ Hran p v0 Hp Hv0).
    unfold bump in Hb. destruct (Z.eqb_spec j 0) as [->|_].
    + unfold ch9 in Hb. lia.
    + rewrite wrap8_small in Hb by lia. unfold ch9 in Hb. lia.
  - rewrite (ran_val _ _ _ _ Hran p v0 Hp Hv0). unfold bump.
    destruct (Z.eqb_spec (1 + hits (Z.of_nat (length g)) (Z.of_nat (width g))
                                   (flashes h) p) 0) as [|_]; [lia|].
    rewrite wrap8_small by lia. unfold reset, ch9.
    destruct (Z.gtb_spec (v0 + (1 + hits (Z.of_nat (length g))
                                      (Z.of_nat (width g)) (flashes h) p)) 57);
      [reflexivity | lia].
Qed.

Lemma high_cell_is_reset_witness :
  exists g' n h,
    step_log (grid_of_strings ["1:"; "23"]) = Some (Returns (g', n, h)) /\
    step (grid_of_strings ["1:"; "23"]) = Some (Returns (g', n)) /\
    ((0, 1) ∉ flashes h) /\ cell g' (0, 1) = Some ch0.
Proof.
  apply (high_cell_is_reset (grid_of_strings ["1:"; "23"]) (0, 1) 58);
    [discriminate | reflexivity | vm_compute; intuition discriminate
    | reflexivity | vm_compute; intuition discriminate].
Defined.

(** ** The functions of main.cpp *)

Lemma for_each_total {S : Type} (f : Z -> S -> S) (l : list Z) (s : S) :
  for_each (fun i s => Ok (f i s)) l s = Ok (foldl (fun s i => f i s) s l).
Proof.
  revert s. induction l as [|i l IH]; intros s; [reflexivity|]. simpl. apply IH.
Qed.

Lemma add_blank_grid_screen (w : world) :
  add_blank_grid w =
  Ok (World (levels w) (rand_calls w)
        (screen w ++
         map (fun row => Add_str (replicate (Z.to_nat (X * max_grid_size + 1))
                                            ch_space) row 0)
             (seqZ 1 max_grid_size))).
Proof.
  unfold add_blank_grid. rewrite for_each_total. f_equal.
  generalize (seqZ 1 max_grid_size) as l. revert w.
  intros w l. revert w. induction l as [|i l IH]; intros w; simpl.
  - rewrite app_nil_r. now destruct w.
  - rewrite IH. unfold add_str. simpl. now rewrite <- app_assoc.
Qed.

Lemma digits_S (rnd : nat -> Z) (k n : nat) :
  digits rnd k (S n) = random_digit rnd k :: digits rnd (S k) n.
Proof. reflexivity. Qed.

Lemma digits_length (rnd : nat -> Z) (k n : nat) : length (digits rnd k n) = n.
Proof. unfold digits. now rewrite length_map, length_seq. Qed.

Lemma digits_lookup (rnd : nat -> Z) (k n j : nat) :
  (j < n)%nat -> digits rnd k n !! j = Some (random_digit rnd (k + j)).
Proof.
  intros Hj. unfold digits. change (map (random_digit rnd) (seq k n))
    with (random_digit rnd <$> seq k n).
  rewrite list_lookup_fmap, lookup_seq_lt by lia. reflexivity.
Qed.

(** The inner loop of [add_random_grid] appends the next digits to the text
    and to the last row of [levels]. *)
Lemma add_random_cells (rnd : nat -> Z) (cols : list Z) :
  forall (text line : list Z) (ls : grid) (k : nat) (scr : list draw),
  for_each (add_random_cell rnd) cols (text, World (ls ++ [line]) k scr) =
  Ok (text ++ digits rnd k (length cols),
      World (ls ++ [line ++ digits rnd k (length cols)])
            (k + length cols) scr).
Proof.
  induction cols as [|col cols IH]; intros text line ls k scr.
  - simpl. rewrite !app_nil_r, Nat.add_0_r. reflexivity.
  - cbn [for_each add_random_cell levels rand_calls screen].
    rewrite length_app. cbn [length].
    replace (length ls + 1 - 1)%nat with (length ls) by lia.
    rewrite (list_lookup_middle ls [] line (length ls) eq_refl).
    rewrite insert_app_r_alt, Nat.sub_diag by lia.
    cbn [insert list_insert orb].
    rewrite IH, digits_S, <- !app_assoc. cbn [app].
    now replace (S k + length cols)%nat with (k + S (length cols))%nat by lia.
Qed.

Lemma random_lines_length (rnd : nat -> Z) (c k r : nat) :
  length (random_lines rnd c k r) = r.
Proof. revert k. induction r as [|r IH]; intros k; simpl; [|rewrite IH]; reflexivity. Qed.

Lemma random_lines_lookup (rnd : nat -> Z) (c r i : nat) :
  forall k, (i < r)%nat ->
  random_lines rnd c k r !! i = Some (digits rnd (k + i * c) c).
Proof.
  revert i. induction r as [|r IH]; intros i k Hi; [lia|].
  destruct i as [|i]; simpl.
  - now rewrite Nat.add_0_r.
  - rewrite IH by lia. do 2 f_equal. lia.
Qed.

(** The outer loop of [add_random_grid]. *)
Lemma add_random_rows (rnd : nat -> Z) (grid_size : Z) (rows : list Z) :
  forall (ls : grid) (k : nat) (scr : list draw),
  for_each
    (fun row w =>
       match for_each (add_random_cell rnd) (seqZ 1 grid_size)
                      ([], World (levels w ++ [[]]) (rand_calls w) (screen w))
       with
       | Ok (text, w') => Ok (add_str text row 0 w')
       | Fails f => Fails f
       end)
    rows (World ls k scr) =
  Ok (World (ls ++ random_lines rnd (Z.to_nat grid_size) k (length rows))
            (k + length rows * Z.to_nat grid_size)
            (scr ++ zip_with (fun row line => Add_str line row 0) rows
                      (random_lines rnd (Z.to_nat grid_size) k (length rows)))).
Proof.
  induction rows as [|row rows IH]; intros ls k scr.
  - simpl. rewrite !app_nil_r, Nat.add_0_r. reflexivity.
  - cbn [for_each levels rand_calls screen].
    rewrite add_random_cells, length_seqZ. unfold add_str.
    cbn [app levels rand_calls screen].
    rewrite IH. cbn [length random_lines zip_with].
    rewrite <- !app_assoc. cbn [app]. do 2 f_equal. lia.
Qed.

Lemma random_digit_is_digit (rnd : nat -> Z) (k : nat) :
  0 <= rnd k -> ch0 <= random_digit rnd k <= ch9.
Proof.
  intros Hk. unfold random_digit, ch0, ch9.
  pose proof (Z.rem_bound_pos (rnd k) 10 Hk ltac:(lia)).
  rewrite wrap8_small; lia.
Qed.

Lemma random_lines_valid (rnd : nat -> Z) (c k r : nat) :
  (forall i, 0 <= rnd i) -> (1 <= r)%nat ->
  valid_grid (random_lines rnd c k r) = true /\
  width (random_lines rnd c k r) = c.
Proof.
  intros Hrnd Hr.
  assert (Hw : width (random_lines rnd c k r) = c).
  { destruct r; [lia|]. simpl. apply digits_length. }
  split; [|exact Hw]. apply valid_grid_parts. split; [|split].
  - destruct r; [lia | discriminate].
  - unfold rectangular. rewrite Hw. apply forallb_forall.
    intros row [i Hi]%list_elem_of_In%list_elem_of_lookup.
    pose proof (lookup_lt_Some _ _ _ Hi) as Hlt.
    rewrite random_lines_length in Hlt.
    rewrite random_lines_lookup in Hi by lia. injection Hi as <-.
    apply Nat.eqb_eq, digits_length.
  - apply forallb_forall.
    intros row [i Hi]%list_elem_of_In%list_elem_of_lookup.
    pose proof (lookup_lt_Some _ _ _ Hi) as Hlt.
    rewrite random_lines_length in Hlt.
    rewrite random_lines_lookup in Hi by lia. injection Hi as <-.
    apply forallb_forall. unfold digits.
    intros v (j & <- & _)%in_map_iff.
    pose proof (random_digit_is_digit rnd j (Hrnd j)).
    unfold is_digit. apply andb_true_iff. rewrite !Z.leb_le. lia.
Qed.

Lemma zip_with_seqZ_imap {A B : Type} (f : Z -> A -> B) (l : list A) (m : Z) :
  zip_with f (seqZ m (Z.of_nat (length l))) l =
  imap (fun i x => f (m + Z.of_nat i) x) l.
Proof.
  revert m. induction l as [|x l IH]; intros m; [reflexivity|].
  rewrite seqZ_cons by (simpl; lia). cbn [zip_with imap].
  rewrite Z.add_0_r. f_equal.
  replace (Z.pred (Z.of_nat (length (x :: l)))) with (Z.of_nat (length l))
    by (simpl; lia).
  rewrite IH. apply imap_ext. intros i y _. simpl. f_equal. lia.
Qed.

(** [add_random_grid] in closed form, for a size that [reserve] accepts. *)
Lemma add_random_grid_lines (rnd : nat -> Z) (grid_size : Z) (w : world) :
  0 <= grid_size < INT_MAX ->
  add_random_grid rnd grid_size w =
  Ok (World
        (random_lines rnd (Z.to_nat grid_size) (rand_calls w)
           (Z.to_nat (Z.min max_grid_size grid_size)))
        (rand_calls w +
         Z.to_nat (Z.min max_grid_size grid_size) * Z.to_nat grid_size)
        (screen w ++
         imap (fun i line => Add_str line (1 + Z.of_nat i) 0)
           (random_lines rnd (Z.to_nat grid_size) (rand_calls w)
              (Z.to_nat (Z.min max_grid_size grid_size))))).
Proof.
  intros Hsize. unfold add_random_grid.
  destruct (Z.ltb_spec grid_size 0); [lia|].
  destruct (Z.leb_spec INT_MAX grid_size); [lia|].
  rewrite add_random_rows, length_seqZ. cbn [app]. do 2 f_equal.
  assert (Hmin : 0 <= Z.min max_grid_size grid_size) by (unfold max_grid_size; lia).
  rewrite <- (zip_with_seqZ_imap (fun row line => Add_str line row 0)).
  now rewrite random_lines_length, Z2Nat.id.
Qed.

(** X7: for a size in the range of the slider, 1 to [X * max_grid_size],
    and a [std::rand] that returns non-negative numbers, [add_random_grid]
    replaces whatever [levels] held by a valid grid of [min(20, grid_size)]
    rows and [grid_size] columns, whose cell [(i, j)] is the digit of the
    [(i * grid_size + j)]-th call of [std::rand] made by the function, and
    it draws row [i] of that grid, as it is, at row [i + 1], column 0 of
    the gadget. *)
Theorem add_random_grid_spec (rnd : nat -> Z) (grid_size : Z) (w : world) :
  (forall i, 0 <= rnd i) -> 1 <= grid_size <= X * max_grid_size ->
  exists w',
    add_random_grid rnd grid_size w = Ok w' /\
    valid_grid (levels w') = true /\
    length (levels w') = Z.to_nat (Z.min max_grid_size grid_size) /\
    width (levels w') = Z.to_nat grid_size /\
    (forall i j, (i < length (levels w'))%nat -> (j < Z.to_nat grid_size)%nat ->
       cell (levels w') (Z.of_nat i, Z.of_nat j) =
       Some (random_digit rnd (rand_calls w + i * Z.to_nat grid_size + j))) /\
    rand_calls w' =
      (rand_calls w + length (levels w') * Z.to_nat grid_size)%nat /\
    screen w' =
      screen w ++ imap (fun i line => Add_str line (1 + Z.of_nat i) 0)
                       (levels w').
Proof.
  intros Hrnd Hsize. eexists. split.
  { apply add_random_grid_lines. unfold X, max_grid_size, INT_MAX in *. lia. }
  cbn [levels rand_calls screen].
  set (r := Z.to_nat (Z.min max_grid_size grid_size)).
  assert (Hr : (1 <= r)%nat) by (unfold r, max_grid_size; lia).
  destruct (random_lines_valid rnd (Z.to_nat grid_size) (rand_calls w) r Hrnd Hr)
    as [Hvalid Hwidth].
  split; [exact Hvalid|]. rewrite random_lines_length.
  split; [reflexivity|]. split; [exact Hwidth|].
  split; [|split; reflexivity].
  intros i j Hi Hj. apply cell_Some. simpl. rewrite !Nat2Z.id.
  split; [lia|]. split; [lia|].
  exists (digits rnd (rand_calls w + i * Z.to_nat grid_size) (Z.to_nat grid_size)).
  split; [now apply random_lines_lookup | now apply digits_lookup].
Qed.

Lemma add_random_grid_spec_witness :
  exists w',
    add_random_grid (fun k => Z.of_nat k * 7 + 3) 3 (World [[1]] 5 []) = Ok w' /\
    valid_grid (levels w') = true /\
    length (levels w') = Z.to_nat (Z.min max_grid_size 3) /\
    width (levels w') = Z.to_nat 3 /\
    (forall i j, (i < length (levels w'))%nat -> (j < Z.to_nat 3)%nat ->
       cell (levels w') (Z.of_nat i, Z.of_nat j) =
       Some (random_digit (fun k => Z.of_nat k * 7 + 3)
               (5 + i * Z.to_nat 3 + j))) /\
    rand_calls w' = (5 + length (levels w') * Z.to_nat 3)%nat /\
    screen w' =
      [] ++ imap (fun i line => Add_str line (1 + Z.of_nat i) 0) (levels w').
Proof.
  apply (add_random_grid_spec (fun k => Z.of_nat k * 7 + 3) 3 (World [[1]] 5 []));
    [intros i; lia | unfold X, max_grid_size; lia].
Defined.

Lemma line_text_cons (line : list Z) : line_text line = ch_space :: line.
Proof.
  unfold line_text. change (ch_space :: line) with ([ch_space] ++ line).
  generalize [ch_space] as text. induction line as [|c line IH]; intros text.
  - now rewrite app_nil_r.
  - cbn [foldl orb]. rewrite IH, <- app_assoc. reflexivity.
Qed.

(** The drawing loop of [add_next_grid_text], from row [length pre + 1] on. *)
Lemma draw_rows (post : grid) :
  forall (pre : grid) (k : nat) (scr : list draw),
  for_each
    (fun row w =>
       match levels w !! Z.to_nat (row - 1) with
       | None => Fails Undefined_behaviour
       | Some line => Ok (add_str (line_text line) row 0 w)
       end)
    (seqZ (1 + Z.of_nat (length pre)) (Z.of_nat (length post)))
    (World (pre ++ post) k scr) =
  Ok (World (pre ++ post) k
        (scr ++ imap (fun i line =>
                        Add_str (ch_space :: line)
                                (1 + Z.of_nat (length pre + i)) 0) post)).
Proof.
  unfold add_str. induction post as [|line post IH]; intros pre k scr.
  - simpl. now rewrite !app_nil_r.
  - rewrite seqZ_cons by (simpl; lia). cbn [for_each levels].
    replace (Z.to_nat (1 + Z.of_nat (length pre) - 1)) with (length pre) by lia.
    rewrite (list_lookup_middle pre post line (length pre) eq_refl).
    cbn [levels rand_calls screen].
    replace (Z.succ (1 + Z.of_nat (length pre)))
      with (1 + Z.of_nat (length (pre ++ [line])))
      by (rewrite length_app; simpl; lia).
    replace (Z.pred (Z.of_nat (length (line :: post))))
      with (Z.of_nat (length post)) by (simpl; lia).
    replace (pre ++ line :: post) with ((pre ++ [line]) ++ post)
      by (now rewrite <- app_assoc).
    rewrite IH, line_text_cons, imap_cons, <- !app_assoc. cbn [app].
    rewrite Nat.add_0_r. do 4 f_equal. apply imap_ext. intros i y _. simpl.
    rewrite length_app. simpl. do 2 f_equal. lia.
Qed.

(** A step on a valid grid leaves a valid grid of the same shape. *)
Lemma step_keeps_valid (g g' : grid) (n : Z) :
  valid_grid g = true -> step g = Some (Returns (g', n)) ->
  valid_grid g' = true /\ map length g' = map length g.
Proof.
  intros Hv Hstep.
  destruct (step_log_valid (9 * cell_count g) g Hv (le_n _))
    as (g2 & n2 & h & Hrun & Hran & Hcells).
  rewrite (step_of_log _ _ _ _ Hrun) in Hstep. injection Hstep as <- <-.
  pose proof Hv as (Hne & Hrect & Hdig)%valid_grid_parts.
  pose proof (ran_shape _ _ _ _ Hran) as Hsh.
  split; [|exact Hsh]. apply valid_grid_parts. split; [|split].
  - intros ->. apply shape_length in Hsh. destruct g; [congruence | discriminate].
  - now rewrite (rectangular_shape g2 g Hsh).
  - apply cells_digits. exact (step_valid_digits g g2 n2 h Hsh Hcells Hdig).
Qed.

Lemma add_next_grid_text_valid (w : world) :
  valid_grid (levels w) = true ->
  exists g' n,
    step (levels w) = Some (Returns (g', n)) /\
    valid_grid g' = true /\
    map length g' = map length (levels w) /\
    add_next_grid_text w =
    Some (Ok (World g' (rand_calls w)
                (screen w ++
                 imap (fun i line => Add_str (ch_space :: line)
                                             (1 + Z.of_nat i) 0) g'))).
Proof.
  intros Hv.
  destruct (step_valid_summary _ Hv) as (g' & n & h & Hstep & _).
  exists g', n. split; [exact Hstep|].
  destruct (step_keeps_valid _ _ _ Hv Hstep) as [Hv' Hsh].
  split; [exact Hv'|]. split; [exact Hsh|].
  unfold add_next_grid_text. rewrite Hstep.
  pose proof (draw_rows g' [] (rand_calls w) (screen w)) as Hdraw.
  cbn [length app Z.of_nat Z.add] in Hdraw. exact (f_equal Some Hdraw).
Qed.

(** X8: on a valid grid [add_next_grid_text] does not fail: it replaces
    [levels] by the grid [step] leaves, makes no call of [std::rand], and
    draws each row of the new grid, preceded by one space, at row [i + 1],
    column 0 of the gadget. *)
Theorem add_next_grid_text_spec (w : world) :
  valid_grid (levels w) = true ->
  exists g' n,
    step (levels w) = Some (Returns (g', n)) /\
    valid_grid g' = true /\
    add_next_grid_text w =
    Some (Ok (World g' (rand_calls w)
                (screen w ++
                 imap (fun i line => Add_str (ch_space :: line)
                                             (1 + Z.of_nat i) 0) g'))).
Proof.
  intros Hv.
  destruct (add_next_grid_text_valid w Hv) as (g' & n & Hstep & Hv' & _ & Hrun).
  exists g', n. auto.
Qed.

Lemma add_next_grid_text_spec_witness :
  exists g' n,
    step (levels (World (grid_of_strings ["18"; "91"]) 0 [])) =
      Some (Returns (g', n)) /\
    valid_grid g' = true /\
    add_next_grid_text (World (grid_of_strings ["18"; "91"]) 0 []) =
    Some (Ok (World g' 0
                ([] ++ imap (fun i line => Add_str (ch_space :: line)
                                                   (1 + Z.of_nat i) 0) g'))).
Proof.
  apply (add_next_grid_text_spec (World (grid_of_strings ["18"; "91"]) 0 [])).
  reflexivity.
Defined.

Lemma width_shape (g g' : grid) :
  map length g = map length g' -> width g = width g'.
Proof. destruct g, g'; simpl; congruence. Qed.

Lemma valid_row_length (g : grid) (i : nat) (line : list Z) :
  valid_grid g = true -> g !! i = Some line -> length line = width g.
Proof.
  intros (_ & Hrect & _)%valid_grid_parts Hi.
  unfold rectangular in Hrect. rewrite forallb_forall in Hrect.
  apply Nat.eqb_eq, Hrect, list_elem_of_In, list_elem_of_lookup. eauto.
Qed.

Lemma Forall_imap_lookup {A B : Type} (P : B -> Prop) (f : nat -> A -> B)
    (l : list A) :
  (forall i x, l !! i = Some x -> P (f i x)) -> Forall P (imap f l).
Proof.
  intros H. apply Forall_forall. intros y [i Hi]%list_elem_of_lookup.
  rewrite list_lookup_imap in Hi.
  destruct (l !! i) as [x|] eqn:Hx; [|discriminate].
  injection Hi as <-. now apply H.
Qed.

(** The slider callback in closed form. *)
Lemma on_slider_change_lines (rnd : nat -> Z) (n : Z) (w : world) :
  0 <= n < INT_MAX ->
  on_slider_change rnd n w =
  Ok (World
        (random_lines rnd (Z.to_nat n) (rand_calls w)
           (Z.to_nat (Z.min max_grid_size n)))
        (rand_calls w + Z.to_nat (Z.min max_grid_size n) * Z.to_nat n)
        (((screen w ++
           map (fun row => Add_str (replicate (Z.to_nat (X * max_grid_size + 1))
                                              ch_space) row 0)
               (seqZ 1 max_grid_size)) ++
          imap (fun i line => Add_str line (1 + Z.of_nat i) 0)
            (random_lines rnd (Z.to_nat n) (rand_calls w)
               (Z.to_nat (Z.min max_grid_size n)))) ++
         [Add_border])).
Proof.
  intros Hn. unfold on_slider_change.
  rewrite add_blank_grid_screen, add_random_grid_lines by exact Hn.
  reflexivity.
Qed.

Lemma blank_lines_in_area :
  Forall in_blank_area
    (map (fun row => Add_str (replicate (Z.to_nat (X * max_grid_size + 1))
                                        ch_space) row 0)
         (seqZ 1 max_grid_size)).
Proof.
  apply Forall_forall. intros d (row & -> & Hrow)%list_elem_of_fmap.
  apply elem_of_seqZ in Hrow. unfold in_blank_area.
  rewrite length_replicate. unfold X, max_grid_size in *. lia.
Qed.

Lemma random_lines_in_area (rnd : nat -> Z) (c k r : nat) :
  (r <= 20)%nat -> (c <= 120)%nat ->
  Forall in_blank_area
    (imap (fun i line => Add_str line (1 + Z.of_nat i) 0)
          (random_lines rnd c k r)).
Proof.
  intros Hr Hc. apply Forall_imap_lookup. intros i line Hi.
  pose proof (lookup_lt_Some _ _ _ Hi) as Hlt.
  rewrite random_lines_length in Hlt.
  rewrite random_lines_lookup in Hi by lia. injection Hi as <-.
  simpl. rewrite digits_length. unfold X, max_grid_size. lia.
Qed.

(** What every run of frames and slider changes keeps true. *)
Lemma play_inv (rnd : nat -> Z) (hi : Z) :
  (forall i, 0 <= rnd i) -> hi < INT_MAX ->
  forall (evs : list event) (w : world) (s : Z),
  sizes_within hi evs -> 1 <= s ->
  valid_grid (levels w) = true ->
  length (levels w) = Z.to_nat (Z.min max_grid_size s) ->
  width (levels w) = Z.to_nat s ->
  exists w',
    play rnd evs w = Some (Ok w') /\
    valid_grid (levels w') = true /\
    length (levels w') =
      Z.to_nat (Z.min max_grid_size
                  (foldl (fun s e => match e with Slide n => n | Tick => s end)
                         s evs)) /\
    width (levels w') =
      Z.to_nat (foldl (fun s e => match e with Slide n => n | Tick => s end)
                      s evs) /\
    (s <= X * max_grid_size -> hi <= X * max_grid_size ->
     Forall in_blank_area (screen w) -> Forall in_blank_area (screen w')).
Proof.
  intros Hrnd Hmax.
  induction evs as [|e evs IH]; intros w s Hsizes Hs Hv Hlen Hwid.
  { exists w. simpl. auto. }
  apply Forall_cons in Hsizes as [He Hsizes]. destruct e as [|n].
  - destruct (add_next_grid_text_valid w Hv) as (g' & m & _ & Hv' & Hsh & Hrun).
    cbn [play foldl]. unfold frame. rewrite Hrun.
    destruct (IH (add_border
                    (World g' (rand_calls w)
                       (screen w ++
                        imap (fun i line => Add_str (ch_space :: line)
                                                    (1 + Z.of_nat i) 0) g')))
                 s Hsizes Hs)
      as (w' & Hplay & Hvw & Hlw & Hww & Hscr); cbn [add_border levels].
    + exact Hv'.
    + now rewrite (shape_length _ _ Hsh).
    + now rewrite (width_shape _ _ Hsh).
    + exists w'. split; [exact Hplay|]. split; [exact Hvw|].
      split; [exact Hlw|]. split; [exact Hww|].
      intros Hs120 Hhi Hold. apply (Hscr Hs120 Hhi). cbn [add_border screen].
      apply Forall_app. split; [|repeat constructor].
      apply Forall_app. split; [exact Hold|].
      apply Forall_imap_lookup. intros i line Hi.
      pose proof (lookup_lt_Some _ _ _ Hi) as Hlt.
      rewrite (shape_length _ _ Hsh), Hlen in Hlt.
      pose proof (valid_row_length g' i line Hv' Hi) as Hline.
      rewrite (width_shape _ _ Hsh), Hwid in Hline.
      simpl. rewrite Hline. unfold X, max_grid_size in *. lia.
  - cbn [play foldl]. rewrite on_slider_change_lines by lia.
    set (r := Z.to_nat (Z.min max_grid_size n)).
    assert (Hr : (1 <= r)%nat) by (unfold r, max_grid_size; lia).
    destruct (random_lines_valid rnd (Z.to_nat n) (rand_calls w) r Hrnd Hr)
      as [Hvalid Hwidth].
    match goal with
    | |- context [play rnd evs ?w1] =>
      destruct (IH w1 n Hsizes ltac:(lia))
        as (w' & Hplay & Hvw & Hlw & Hww & Hscr); cbn [levels]
    end.
    + exact Hvalid.
    + apply random_lines_length.
    + exact Hwidth.
    + exists w'. split; [exact Hplay|]. split; [exact Hvw|].
      split; [exact Hlw|]. split; [exact Hww|].
      intros _ Hhi Hold. apply (Hscr ltac:(lia) Hhi). cbn [screen].
      apply Forall_app. split; [|repeat constructor].
      apply Forall_app. split.
      * apply Forall_app. split; [exact Hold | exact blank_lines_in_area].
      * apply random_lines_in_area;
          unfold r, X, max_grid_size in *; lia.
Qed.

Lemma on_start_setup_lines (rnd : nat -> Z) (w : world) :
  on_start_setup rnd w =
  Ok (World (random_lines rnd 14 (rand_calls w) 14)
            (rand_calls w + 14 * 14)
            ((screen w ++
              imap (fun i line => Add_str line (1 + Z.of_nat i) 0)
                   (random_lines rnd 14 (rand_calls w) 14)) ++
             [Add_border])).
Proof.
  unfold on_start_setup.
  now rewrite add_random_grid_lines by (unfold INT_MAX; lia).
Qed.

(** X9: once [on_start] has set up its 14 x 14 grid, no sequence of frames
    and slider changes fails, as long as [std::rand] returns non-negative
    numbers and every slider size lies in the range of the slider, 1 to
    [X * max_grid_size]: [levels] stays a valid grid throughout, of
    [min(20, s)] rows and [s] columns for the latest size [s]. *)
Theorem animation_never_fails (rnd : nat -> Z) (evs : list event)
    (w : world) :
  (forall i, 0 <= rnd i) -> sizes_within (X * max_grid_size) evs ->
  exists w1 w2,
    on_start_setup rnd w = Ok w1 /\
    play rnd evs w1 = Some (Ok w2) /\
    valid_grid (levels w2) = true /\
    length (levels w2) = Z.to_nat (Z.min max_grid_size (current_size evs)) /\
    width (levels w2) = Z.to_nat (current_size evs).
Proof.
  intros Hrnd Hsizes. rewrite on_start_setup_lines.
  destruct (random_lines_valid rnd 14 (rand_calls w) 14 Hrnd ltac:(lia))
    as [Hvalid Hwidth].
  eexists.
  match goal with
  | |- exists w2, Ok ?w1 = _ /\ _ =>
    destruct (play_inv rnd (X * max_grid_size) Hrnd eq_refl evs w1 14 Hsizes
                ltac:(lia))
      as (w2 & Hplay & Hv & Hl & Hw & _); cbn [levels]
  end.
  - exact Hvalid.
  - apply random_lines_length.
  - exact Hwidth.
  - exists w2. split; [reflexivity|]. split; [exact Hplay|]. auto.
Qed.

Lemma animation_never_fails_witness :
  exists w1 w2,
    on_start_setup (fun k => Z.of_nat k * 7 + 3) (World [] 0 []) = Ok w1 /\
    play (fun k => Z.of_nat k * 7 + 3) [Tick; Slide 3; Tick] w1 = Some (Ok w2) /\
    valid_grid (levels w2) = true /\
    length (levels w2) =
      Z.to_nat (Z.min max_grid_size (current_size [Tick; Slide 3; Tick])) /\
    width (levels w2) = Z.to_nat (current_size [Tick; Slide 3; Tick]).
Proof.
  apply (animation_never_fails (fun k => Z.of_nat k * 7 + 3)
           [Tick; Slide 3; Tick] (World [] 0 [])).
  - intros i. lia.
  - repeat constructor; unfold X, max_grid_size; lia.
Defined.




(** X11: a grid size of 0 is accepted by [add_random_grid], which then
    leaves [levels] empty and draws nothing; the next frame fails, with the
    [std::out_of_range] of [levels.at(0)] in [step], before drawing
    anything. A negative size fails in [levels.reserve]. *)
Theorem empty_grid_fails_next_frame (rnd : nat -> Z) (w : world)
    (evs : list event) :
  add_random_grid rnd 0 w = Ok (World [] (rand_calls w) (screen w)) /\
  add_next_grid_text (World [] (rand_calls w) (screen w)) =
    Some (Fails Out_of_range) /\
  play rnd (Slide 0 :: Tick :: evs) w = Some (Fails Out_of_range) /\
  forall n, n < 0 -> play rnd (Slide n :: evs) w = Some (Fails Length_error).
Proof.
  split; [reflexivity|]. split; [reflexivity|]. split.
  - cbn [play]. rewrite on_slider_change_lines by (unfold INT_MAX; lia).
    reflexivity.
  - intros n Hn. cbn [play]. unfold on_slider_change.
    rewrite add_blank_grid_screen. unfold add_random_grid.
    destruct (Z.ltb_spec n 0); [reflexivity | lia].
Qed.
